(** * OCHMO technical-brief scraper: the model of [scrapers/ochmo-scraper.py]

    The definitions follow the Python module:

    - [Text]: Python [str] values and the string methods the module
      calls ([upper], [title], [replace]);
    - [Re]: the fragment of Python's [re] the five patterns of the module
      are written in, as a backtracking matcher that lists the ways of
      matching in the order in which [re] tries them, with [re.search]
      and [re.finditer];
    - [Slice]: [xs[:limit]];
    - [Patterns]: the five patterns of the module;
    - [Urllib]: [urllib.parse.urljoin];
    - [Scraper]: the classes [PdfReport] and [NasaScraper].  The network
      is a state the requests act on, [print] appends to the output, and
      the libraries the module calls ([requests], [BeautifulSoup],
      [urljoin], [PdfReader]) are parameters, taken as total functions:
      an exception the module does not catch is outside the model;
    - [Spec], [OneWay], [Shapes], [Links]: the notions the statements are
      written in;
    - [Demo]: small worlds to run the module in;
    - [Report]: the text of a report and the script.

    The lemmas and the theorems come after all the definitions.

    Text is modelled over 8-bit characters, the code points below 256.
    The character classes of [re] and the case maps of [title] are
    Python's on them; [upper] and [lower] are Python's on the code points
    below 128, where the module and [urljoin] apply them. *)

From Stdlib Require Import Ascii String List Arith ZArith Lia Bool.
Import ListNotations.
Local Open Scope list_scope.

(* ===================================================================== *)
(** ** Python strings                                                     *)
(* ===================================================================== *)

Module Text.

Abbreviation str := (list ascii) (only parsing).

(** A literal of the source, as a [str]. *)
Definition txt (s : string) : str := list_ascii_of_string s.

Definition code (c : ascii) : nat := nat_of_ascii c.

Definition between (lo hi : nat) (c : ascii) : bool :=
  (lo <=? code c) && (code c <=? hi).

Definition is_upper_letter : ascii -> bool := between 65 90.
Definition is_lower_letter : ascii -> bool := between 97 122.
Definition is_letter (c : ascii) : bool := is_upper_letter c || is_lower_letter c.

(** [\d] *)
Definition is_digit : ascii -> bool := between 48 57.

(** [\s]: tab, line feed, vertical tab, form feed, carriage return, the
    four separators 0x1c..0x1f, the space, the next-line control 0x85
    and the no-break space 0xa0. *)
Definition is_space (c : ascii) : bool :=
  between 9 13 c || between 28 31 c || (code c =? 32)
  || (code c =? 133) || (code c =? 160).

(** The letters above 127: the ordinal indicators, the micro sign, and
    0xc0..0xff but for the two signs of multiplication and division. *)
Definition is_latin1_letter (c : ascii) : bool :=
  (code c =? 170) || (code c =? 181) || (code c =? 186)
  || between 192 214 c || between 216 246 c || between 248 255 c.

(** The digits and numbers above 127: the superscripts and the three
    fractions. *)
Definition is_latin1_number (c : ascii) : bool :=
  between 178 179 c || (code c =? 185) || between 188 190 c.

(** [\w]: what is alphanumeric for [str.isalnum], and the underscore. *)
Definition is_word (c : ascii) : bool :=
  is_letter c || is_digit c || (code c =? 95)
  || is_latin1_letter c || is_latin1_number c.

(** [.] without DOTALL: anything but a line feed. *)
Definition is_dot (c : ascii) : bool := negb (code c =? 10).

Definition lower_char (c : ascii) : ascii :=
  if is_upper_letter c then ascii_of_nat (code c + 32) else c.

Definition upper_char (c : ascii) : ascii :=
  if is_lower_letter c then ascii_of_nat (code c - 32) else c.

(** [s.upper()], for the letters below 128. *)
Definition upper (s : str) : str := map upper_char s.

(** [s.lower()], for the letters below 128. *)
Definition lower (s : str) : str := map lower_char s.

(** A character with a case, for [title]: a letter. *)
Definition is_cased (c : ascii) : bool := is_letter c || is_latin1_letter c.

(** The lowercase of one character, over all of Latin-1. *)
Definition lower_latin1 (c : ascii) : ascii :=
  if is_upper_letter c || between 192 214 c || between 216 222 c
  then ascii_of_nat (code c + 32) else c.

(** The two letters of Latin-1 whose capital is not in Latin-1: the
    micro sign and the y with diaeresis. *)
Definition capital_outside_latin1 (c : ascii) : bool :=
  (code c =? 181) || (code c =? 255).

Definition sharp_s : ascii := ascii_of_nat 223.

(** The titlecase of one character: the capital of a small letter; two
    letters for the sharp s.  The text is 8-bit: a letter whose capital is
    outside Latin-1 is left as it is here, and the statements about a
    title are made for texts without such a letter. *)
Definition title_char (c : ascii) : str :=
  if is_lower_letter c || between 224 246 c || between 248 254 c
  then [ascii_of_nat (code c - 32)]
  else if code c =? 223 then [ascii_of_nat 83; ascii_of_nat 115]
  else [c].

(** [s.title()]: a character that follows a cased one is lowercased, any
    other is titlecased. *)
Fixpoint title_from (prev_cased : bool) (s : str) : str :=
  match s with
  | [] => []
  | c :: s' =>
      (if prev_cased then [lower_latin1 c] else title_char c)
        ++ title_from (is_cased c) s'
  end.

Definition str_title (s : str) : str := title_from false s.

(** [s.startswith(p)] *)
Fixpoint startswith (p s : str) : bool :=
  match p, s with
  | [], _ => true
  | a :: p', c :: s' => Ascii.eqb a c && startswith p' s'
  | _ :: _, [] => false
  end.

(** [s.replace(old, new)] for a non-empty [old]: the occurrences of [old]
    are replaced left to right, without overlap.  [skip] counts the
    characters of an occurrence just replaced that are still to be
    passed over. *)
Fixpoint replace_from (old new : str) (skip : nat) (s : str) : str :=
  match s with
  | [] => []
  | c :: s' =>
      match skip with
      | S k => replace_from old new k s'
      | O =>
          if startswith old s
          then new ++ replace_from old new (length old - 1) s'
          else c :: replace_from old new 0 s'
      end
  end.

Definition replace (old new s : str) : str := replace_from old new 0 s.

(** Truth value of an optional string or bytes object: [None] and the
    empty value are false. *)
Definition truthy {A} (o : option (list A)) : bool :=
  match o with
  | Some (_ :: _) => true
  | _ => false
  end.

End Text.
Import Text.

(* ===================================================================== *)
(** ** The [re] fragment                                                  *)
(* ===================================================================== *)

Module Re.

(** The constructs the patterns of the module are written in.  Every
    pattern is compiled with [re.IGNORECASE]; every repetition is over a
    one-character class; there is one capturing group. *)
Inductive regex : Type :=
| Lit (l : str)                  (* a literal, letters compared without case *)
| Sym (p : ascii -> bool)        (* one character of a class *)
| Cat (r1 r2 : regex)            (* r1 r2 *)
| Opt (r : regex)                (* r?   greedy *)
| Plus (p : ascii -> bool)       (* p+   greedy *)
| Star (p : ascii -> bool)       (* p*   greedy *)
| StarLazy (p : ascii -> bool)   (* p*?  lazy *)
| Group (r : regex).             (* ( r ), group 1 *)

(** Equality of two characters under IGNORECASE. *)
Definition ci_eqb (a c : ascii) : bool :=
  Ascii.eqb (lower_char a) (lower_char c).

(** The literal [l] read, without case, at the head of [s]: what is left
    of [s]. *)
Fixpoint strip_lit (l s : str) : option str :=
  match l with
  | [] => Some s
  | a :: l' =>
      match s with
      | c :: s' => if ci_eqb a c then strip_lit l' s' else None
      | [] => None
      end
  end.

(** What can be left of [s] after [p*], the longest run first. *)
Fixpoint greedy (p : ascii -> bool) (s : str) : list str :=
  match s with
  | c :: s' => if p c then greedy p s' ++ [s] else [s]
  | [] => [[]]
  end.

(** What can be left of [s] after [p*?], the shortest run first. *)
Fixpoint reluctant (p : ascii -> bool) (s : str) : list str :=
  match s with
  | c :: s' => if p c then s :: reluctant p s' else [s]
  | [] => [[]]
  end.

(** The text consumed between [s] and its suffix [s']. *)
Definition consumed (s s' : str) : str := firstn (length s - length s') s.

(** The backtracking matcher: every way of matching [r] at the head of
    [s], in the order in which the matcher tries them, each with the
    content of group 1 and what is left of [s]. *)
Fixpoint exec (r : regex) (s : str) (g : option str) : list (option str * str) :=
  match r with
  | Lit l =>
      match strip_lit l s with
      | Some s' => [(g, s')]
      | None => []
      end
  | Sym p =>
      match s with
      | c :: s' => if p c then [(g, s')] else []
      | [] => []
      end
  | Cat r1 r2 => flat_map (fun gs => exec r2 (snd gs) (fst gs)) (exec r1 s g)
  | Opt r1 => exec r1 s g ++ [(g, s)]
  | Plus p =>
      match s with
      | c :: s' => if p c then map (pair g) (greedy p s') else []
      | [] => []
      end
  | Star p => map (pair g) (greedy p s)
  | StarLazy p => map (pair g) (reluctant p s)
  | Group r1 => map (fun gs => (Some (consumed s (snd gs)), snd gs)) (exec r1 s g)
  end.

(** A match object: the text passed over before the match, [group(0)],
    [group(1)] and the text after the match. *)
Record Match : Type := mkMatch {
  m_pre : str;
  group0 : str;
  group1 : option str;
  m_post : str
}.

(** [pattern.match(s)]: the first way the matcher finds at the head of [s]. *)
Definition match_here (r : regex) (s : str) : option Match :=
  match exec r s None with
  | (g, s') :: _ => Some (mkMatch [] (consumed s s') g s')
  | [] => None
  end.

Definition shift (c : ascii) (m : Match) : Match :=
  mkMatch (c :: m_pre m) (group0 m) (group1 m) (m_post m).

(** [re.search(r, s)]: the start positions are tried from left to right. *)
Fixpoint search (r : regex) (s : str) : option Match :=
  match match_here r s with
  | Some m => Some m
  | None =>
      match s with
      | [] => None
      | c :: s' => option_map (shift c) (search r s')
      end
  end.

(** [pattern.match(s)] when the match must advance: the first way the
    matcher finds at the head of [s] that consumes a character. *)
Definition match_here_advancing (r : regex) (s : str) : option Match :=
  match filter (fun gs => negb (length (snd gs) =? length s)) (exec r s None) with
  | (g, s') :: _ => Some (mkMatch [] (consumed s s') g s')
  | [] => None
  end.

(** [re.search] when the match must advance at the first position. *)
Definition search_advancing (r : regex) (s : str) : option Match :=
  match match_here_advancing r s with
  | Some m => Some m
  | None =>
      match s with
      | [] => None
      | c :: s' => option_map (shift c) (search r s')
      end
  end.

Definition is_empty (s : str) : bool :=
  match s with [] => true | _ :: _ => false end.

(** [re.finditer(r, s)], as the list of its matches.  The scan resumes
    where the last match ended; after an empty match it must advance: it
    takes no empty match there.  [fuel] bounds the iterations of the
    loop. *)
Fixpoint finditer_loop (fuel : nat) (r : regex) (must_advance : bool) (s : str)
  : list Match :=
  match fuel with
  | O => []
  | S fuel' =>
      match (if must_advance then search_advancing r s else search r s) with
      | None => []
      | Some m => m :: finditer_loop fuel' r (is_empty (group0 m)) (m_post m)
      end
  end.

(** The scan from [s] on, with as much fuel as it can use
    ([finditer_loop_enough]). *)
Definition finditer_from (r : regex) (must_advance : bool) (s : str) : list Match :=
  finditer_loop (2 * length s + 2) r must_advance s.

Definition finditer (r : regex) (s : str) : list Match :=
  finditer_from r false s.

(** [match.group(1)] of a pattern whose group always takes part in the
    match. *)
Definition group_1 (m : Match) : str :=
  match group1 m with
  | Some g => g
  | None => []
  end.

Declare Scope re_scope.
Delimit Scope re_scope with re.
Bind Scope re_scope with regex.
Infix ">>" := Cat (at level 61, right associativity) : re_scope.

End Re.
Import Re.
Local Open Scope re_scope.

(* ===================================================================== *)
(** ** Slicing                                                            *)
(* ===================================================================== *)

Module Slice.

(** [xs[:limit]].  A negative stop counts from the end and is clipped at
    0, a stop beyond the end is clipped at the length. *)
Definition slice_to {A} (xs : list A) (limit : option Z) : list A :=
  match limit with
  | None => xs
  | Some k =>
      let n := Z.of_nat (length xs) in
      let stop := if (k <? 0)%Z then Z.max (n + k) 0 else Z.min k n in
      firstn (Z.to_nat stop) xs
  end.

End Slice.
Import Slice.

(* ===================================================================== *)
(** ** The patterns of the module                                         *)
(* ===================================================================== *)

Module Patterns.

(** [r"(OCHMO-M?TB-\d+)"] *)
Definition id_re : regex :=
  Group (Lit (txt "OCHMO-") >> Opt (Lit (txt "M")) >> Lit (txt "TB-") >> Plus is_digit).

(** [r"ochmo-m?tb-\d+-(.*?)\.pdf"] *)
Definition title_re : regex :=
  Lit (txt "ochmo-") >> Opt (Lit (txt "m")) >> Lit (txt "tb-") >> Plus is_digit >>
  Lit (txt "-") >> Group (StarLazy is_dot) >> Lit (txt ".pdf").

(** [r"(NASA\s?-\s?STD\s?-\s?\d+\sVolume\s\d,\s?Rev\s\w)"] *)
Definition trd_re : regex :=
  Group (Lit (txt "NASA") >> Opt (Sym is_space) >> Lit (txt "-") >> Opt (Sym is_space) >>
         Lit (txt "STD") >> Opt (Sym is_space) >> Lit (txt "-") >> Opt (Sym is_space) >>
         Plus is_digit >> Sym is_space >> Lit (txt "Volume") >> Sym is_space >>
         Sym is_digit >> Lit (txt ",") >> Opt (Sym is_space) >> Lit (txt "Rev") >>
         Sym is_space >> Sym is_word).

(** [r"\[(V\d\s*\d+)\]"] *)
Definition tr_re : regex :=
  Lit (txt "[") >>
  Group (Lit (txt "V") >> Sym is_digit >> Star is_space >> Plus is_digit) >>
  Lit (txt "]").

(** [r"ochmo-m?tb-\d+.*\.pdf\?"] *)
Definition link_re : regex :=
  Lit (txt "ochmo-") >> Opt (Lit (txt "m")) >> Lit (txt "tb-") >> Plus is_digit >>
  Star is_dot >> Lit (txt ".pdf") >> Lit (txt "?").

End Patterns.
Import Patterns.

(* ===================================================================== *)
(** ** [urllib.parse.urljoin]                                             *)
(* ===================================================================== *)

Module Urllib.

(** [urllib.parse] of CPython 3.11, for [str] arguments: [urlsplit],
    [urlparse], [urlunsplit], [urlunparse] and [urljoin], with
    [allow_fragments] at its default.  The functions give what Python's
    return.  [urlsplit] raises [ValueError] from the checks it makes on
    a host that holds a bracket, and from nothing else on 8-bit text;
    the checks are not modelled: [has_bracket] tells the hosts on which
    they are made. *)

Fixpoint str_eqb (a b : str) : bool :=
  match a, b with
  | [], [] => true
  | x :: a', y :: b' => Ascii.eqb x y && str_eqb a' b'
  | _, _ => false
  end.


(** [s in l] *)
Definition member (s : str) (l : list str) : bool := existsb (str_eqb s) l.

(** [c in s] *)
Definition has_char (c : ascii) (s : str) : bool := existsb (Ascii.eqb c) s.

(** [s.split(c, 1)] when [c] is in [s]: the text before and after the
    first [c]. *)
Fixpoint cut (c : ascii) (s : str) : option (str * str) :=
  match s with
  | [] => None
  | x :: s' =>
      if Ascii.eqb x c then Some ([], s')
      else match cut c s' with
           | Some (a, b) => Some (x :: a, b)
           | None => None
           end
  end.

(** [s.split(c)] *)
Fixpoint split (c : ascii) (s : str) : list str :=
  match s with
  | [] => [[]]
  | x :: s' =>
      if Ascii.eqb x c then [] :: split c s'
      else match split c s' with
           | h :: t => (x :: h) :: t
           | [] => [[x]]
           end
  end.

(** [sep.join(parts)] *)
Fixpoint join (sep : str) (parts : list str) : str :=
  match parts with
  | [] => []
  | [p] => p
  | p :: rest => p ++ sep ++ join sep rest
  end.

Definition uses_relative : list str :=
  [[]; txt "ftp"; txt "http"; txt "gopher"; txt "nntp"; txt "imap"; txt "wais";
   txt "file"; txt "https"; txt "shttp"; txt "mms"; txt "prospero"; txt "rtsp";
   txt "rtspu"; txt "sftp"; txt "svn"; txt "svn+ssh"; txt "ws"; txt "wss"].

Definition uses_netloc : list str :=
  [[]; txt "ftp"; txt "http"; txt "gopher"; txt "nntp"; txt "telnet"; txt "imap";
   txt "wais"; txt "file"; txt "mms"; txt "https"; txt "shttp"; txt "snews";
   txt "prospero"; txt "rtsp"; txt "rtspu"; txt "rsync"; txt "svn"; txt "svn+ssh";
   txt "sftp"; txt "nfs"; txt "git"; txt "git+ssh"; txt "ws"; txt "wss"].

Definition uses_params : list str :=
  [[]; txt "ftp"; txt "hdl"; txt "prospero"; txt "http"; txt "imap"; txt "https";
   txt "shttp"; txt "rtsp"; txt "rtspu"; txt "sip"; txt "sips"; txt "mms";
   txt "sftp"; txt "tel"].

Definition scheme_char (c : ascii) : bool :=
  is_letter c || is_digit c || has_char c (txt "+-.").

(** A C0 control character or a space. *)
Definition c0_or_space (c : ascii) : bool := code c <=? 32.

Fixpoint lstrip (s : str) : str :=
  match s with
  | c :: s' => if c0_or_space c then lstrip s' else s
  | [] => []
  end.

Definition strip (s : str) : str := rev (lstrip (rev (lstrip s))).

(** Tab, carriage return and line feed are removed wherever they are. *)
Definition unsafe (c : ascii) : bool :=
  (code c =? 9) || (code c =? 13) || (code c =? 10).

Definition remove_unsafe (s : str) : str := filter (fun c => negb (unsafe c)) s.

Record SplitResult : Type := mkSplit {
  s_scheme : str;
  s_netloc : str;
  s_path : str;
  s_query : str;
  s_fragment : str
}.

(** [_splitnetloc(url, 2)] on what follows the two slashes: the host
    ends before the first of [/], [?] and [#]. *)
Fixpoint splitnetloc (s : str) : str * str :=
  match s with
  | [] => ([], [])
  | c :: s' =>
      if has_char c (txt "/?#") then ([], s)
      else let (host, rest) := splitnetloc s' in (c :: host, rest)
  end.

Definition urlsplit (url scheme : str) : SplitResult :=
  let url := remove_unsafe (lstrip url) in
  let scheme := remove_unsafe (strip scheme) in
  let (scheme, url) :=
    match cut ":" url with
    | Some (c :: before, after) =>
        if is_letter c && forallb scheme_char (c :: before)
        then (lower (c :: before), after)
        else (scheme, url)
    | _ => (scheme, url)
    end in
  let (netloc, url) :=
    match url with
    | "/"%char :: "/"%char :: rest => splitnetloc rest
    | _ => ([], url)
    end in
  let (url, fragment) :=
    match cut "#" url with
    | Some (before, after) => (before, after)
    | None => (url, [])
    end in
  let (url, query) :=
    match cut "?" url with
    | Some (before, after) => (before, after)
    | None => (url, [])
    end in
  mkSplit scheme netloc url query fragment.

(** [_splitparams]: the parameters are what follows the first [;] of the
    last segment of the path. *)
Definition splitparams (url : str) : str * str :=
  let segments := split "/" url in
  match cut ";" (last segments []) with
  | Some (before, after) =>
      (join (txt "/") (removelast segments ++ [before]), after)
  | None => (url, [])
  end.

Record ParseResult : Type := mkParse {
  p_scheme : str;
  p_netloc : str;
  p_path : str;
  p_params : str;
  p_query : str;
  p_fragment : str
}.

Definition urlparse (url scheme : str) : ParseResult :=
  let r := urlsplit url scheme in
  let (url, params) :=
    if member (s_scheme r) uses_params && has_char ";" (s_path r)
    then splitparams (s_path r)
    else (s_path r, []) in
  mkParse (s_scheme r) (s_netloc r) url params (s_query r) (s_fragment r).

Definition nonempty (s : str) : bool :=
  match s with [] => false | _ :: _ => true end.

Definition starts_slash_slash (s : str) : bool :=
  match s with "/"%char :: "/"%char :: _ => true | _ => false end.

Definition starts_slash (s : str) : bool :=
  match s with "/"%char :: _ => true | _ => false end.

Definition urlunsplit (r : SplitResult) : str :=
  let url := s_path r in
  let url :=
    if nonempty (s_netloc r)
       || (nonempty (s_scheme r) && member (s_scheme r) uses_netloc
           && negb (starts_slash_slash url))
    then
      let url := if nonempty url && negb (starts_slash url) then "/"%char :: url else url in
      txt "//" ++ s_netloc r ++ url
    else url in
  let url := if nonempty (s_scheme r) then s_scheme r ++ txt ":" ++ url else url in
  let url := if nonempty (s_query r) then url ++ txt "?" ++ s_query r else url in
  let url := if nonempty (s_fragment r) then url ++ txt "#" ++ s_fragment r else url in
  url.

Definition urlunparse (r : ParseResult) : str :=
  let url := if nonempty (p_params r) then p_path r ++ txt ";" ++ p_params r else p_path r in
  urlunsplit (mkSplit (p_scheme r) (p_netloc r) url (p_query r) (p_fragment r)).

(** [segments[1:-1] = filter(None, segments[1:-1])] *)
Definition drop_empty_inside (segments : list str) : list str :=
  match segments with
  | [] => []
  | [s] => [s]
  | s :: rest => s :: filter nonempty (removelast rest) ++ [last rest []]
  end.

(** The loop over the segments: [..] pops the last segment kept, if there
    is one, [.] is passed over, anything else is kept. *)
Fixpoint resolve (segments resolved_path : list str) : list str :=
  match segments with
  | [] => resolved_path
  | seg :: rest =>
      if str_eqb seg (txt "..") then resolve rest (removelast resolved_path)
      else if str_eqb seg (txt ".") then resolve rest resolved_path
      else resolve rest (resolved_path ++ [seg])
  end.

Definition urljoin (base url : str) : str :=
  if negb (nonempty base) then url
  else if negb (nonempty url) then base
  else
    let b := urlparse base [] in
    let u := urlparse url (p_scheme b) in
    if negb (str_eqb (p_scheme u) (p_scheme b)) || negb (member (p_scheme u) uses_relative)
    then url
    else if member (p_scheme u) uses_netloc && nonempty (p_netloc u)
    then urlunparse u
    else
      let netloc := if member (p_scheme u) uses_netloc then p_netloc b else p_netloc u in
      if negb (nonempty (p_path u)) && negb (nonempty (p_params u))
      then
        let query := if negb (nonempty (p_query u)) then p_query b else p_query u in
        urlunparse (mkParse (p_scheme u) netloc (p_path b) (p_params b) query (p_fragment u))
      else
        let base_parts := split "/" (p_path b) in
        let base_parts :=
          if nonempty (last base_parts []) then removelast base_parts else base_parts in
        let segments :=
          if starts_slash (p_path u) then split "/" (p_path u)
          else drop_empty_inside (base_parts ++ split "/" (p_path u)) in
        let resolved_path := resolve segments [] in
        let resolved_path :=
          if member (last segments []) [txt "."; txt ".."]
          then resolved_path ++ [[]]
          else resolved_path in
        let path := join (txt "/") resolved_path in
        let path := if nonempty path then path else txt "/" in
        urlunparse (mkParse (p_scheme u) netloc path (p_params u) (p_query u) (p_fragment u)).

End Urllib.

(* ===================================================================== *)
(** ** The scraper                                                        *)
(* ===================================================================== *)

Module Scraper.

Definition bytes := list Byte.byte.

(** The attributes of a [PdfReport]. *)
Record PdfReport : Type := mkReport {
  url : str;
  ochmo_id : option str;
  title : option str;
  technical_requirements_docs : list str;
  technical_requirements : list str;
  _pdf_bytes : option bytes
}.

(** [PdfReport.__init__] *)
Definition new_report (u : str) : PdfReport :=
  mkReport u None None [] [] None.

(** [PdfReport._parse_ochmo_id] *)
Definition _parse_ochmo_id (r : PdfReport) : PdfReport :=
  let id_match := search id_re (url r) in
  match id_match with
  | Some m =>
      mkReport (url r) (Some (upper (group_1 m))) (title r)
               (technical_requirements_docs r) (technical_requirements r) (_pdf_bytes r)
  | None =>
      mkReport (url r) None (title r)
               (technical_requirements_docs r) (technical_requirements r) (_pdf_bytes r)
  end.

(** [PdfReport._parse_title] *)
Definition _parse_title (r : PdfReport) : PdfReport :=
  if negb (truthy (ochmo_id r)) then r
  else
    let title_match := search title_re (url r) in
    match title_match with
    | Some m =>
        mkReport (url r) (ochmo_id r)
                 (Some (str_title (replace (txt "-") (txt " ") (group_1 m))))
                 (technical_requirements_docs r) (technical_requirements r) (_pdf_bytes r)
    | None =>
        mkReport (url r) (ochmo_id r) None
                 (technical_requirements_docs r) (technical_requirements r) (_pdf_bytes r)
    end.

(** [PdfReport._parse_technical_requirements]: both loops append to the
    lists the record already holds. *)
Definition _parse_technical_requirements (page_text : str) (r : PdfReport) : PdfReport :=
  let trd_matches := finditer trd_re page_text in
  let docs :=
    fold_left (fun acc m => acc ++ [replace (txt " -") (txt "-") (group_1 m)])
              trd_matches (technical_requirements_docs r) in
  let tr_matches := finditer tr_re page_text in
  let reqs :=
    fold_left (fun acc m => acc ++ [group_1 m])
              tr_matches (technical_requirements r) in
  mkReport (url r) (ochmo_id r) (title r) docs reqs (_pdf_bytes r).

(** What [PdfReader] makes of the bytes of a document: no page, the text
    of the first page, or an exception. *)
Inductive pdf_outcome : Type :=
| NoPages
| PageText (page_text : str)
| PdfError.

(** The lines the module prints. *)
Inductive line : Type :=
| Processing (u : str)
| ErrorFetching (u : str)
| ErrorParsing (u : str)
| FailedBase.

Section Collaborators.

(** The state of the network, and the libraries the module calls. *)
Variable world : Type.

(** [requests.get(u)] followed by [raise_for_status()]: the content of
    the response, or [None] for a [RequestException]. *)
Variable http_get : str -> world -> option bytes * world.

(** The [href] of every [a] tag that has one, in document order. *)
Variable html_hrefs : bytes -> list str.

(** [urllib.parse.urljoin] *)
Variable urljoin : str -> str -> str.

(** [PdfReader(io.BytesIO(b))] and [pages[0].extract_text()] *)
Variable first_page : bytes -> pdf_outcome.

(** The state the module runs in: the network and what was printed. *)
Definition state : Type := world * list line.

Definition M (A : Type) : Type := state -> A * state.

Definition ret {A} (a : A) : M A := fun st => (a, st).

Definition bind {A B} (m : M A) (k : A -> M B) : M B :=
  fun st => let (a, st') := m st in k a st'.

Notation "'let*' x ':=' m 'in' k" := (bind m (fun x => k))
  (at level 10, x binder, k at level 200).

Definition print (l : line) : M unit :=
  fun st => (tt, (fst st, snd st ++ [l])).

Definition get (u : str) : M (option bytes) :=
  fun st => let (resp, w) := http_get u (fst st) in (resp, (w, snd st)).

Definition set_pdf_bytes (r : PdfReport) (b : option bytes) : PdfReport :=
  mkReport (url r) (ochmo_id r) (title r)
           (technical_requirements_docs r) (technical_requirements r) b.

(** [PdfReport._fetch_pdf_content] *)
Definition _fetch_pdf_content (r : PdfReport) : M PdfReport :=
  match _pdf_bytes r with
  | None =>
      let* resp := get (url r) in
      match resp with
      | Some content => ret (set_pdf_bytes r (Some content))
      | None => let* _ := print (ErrorFetching (url r)) in ret (set_pdf_bytes r None)
      end
  | Some _ => ret r
  end.

(** [PdfReport.parse] *)
Definition parse (r : PdfReport) : M PdfReport :=
  let r := _parse_ochmo_id r in
  let r := _parse_title r in
  let* r := _fetch_pdf_content r in
  match _pdf_bytes r with
  | Some (b :: bs) =>
      match first_page (b :: bs) with
      | NoPages => ret r
      | PageText page_text => ret (_parse_technical_requirements page_text r)
      | PdfError => let* _ := print (ErrorParsing (url r)) in ret r
      end
  | _ => ret r
  end.

Definition is_some {A} (o : option A) : bool :=
  match o with Some _ => true | None => false end.

(** [NasaScraper._list_pdf_links] *)
Definition _list_pdf_links (base_url : str) : M (list str) :=
  let* resp := get base_url in
  match resp with
  | Some content =>
      ret (fold_left
             (fun links href =>
                if is_some (search link_re href)
                then links ++ [urljoin base_url href]
                else links)
             (html_hrefs content) [])
  | None => let* _ := print FailedBase in ret []
  end.

(** The loop of [scrape_reports] over [pdf_urls], [reports] being the
    list built so far. *)
Fixpoint scrape_loop (pdf_urls : list str) (reports : list PdfReport)
  : M (list PdfReport) :=
  match pdf_urls with
  | [] => ret reports
  | u :: rest =>
      let* _ := print (Processing u) in
      let* report := parse (new_report u) in
      scrape_loop rest
        (if truthy (ochmo_id report) then reports ++ [report] else reports)
  end.

(** [NasaScraper.scrape_reports] *)
Definition scrape_reports (base_url : str) (limit : option Z) : M (list PdfReport) :=
  let* links := _list_pdf_links base_url in
  let pdf_urls := slice_to links limit in
  scrape_loop pdf_urls [].

(** The records of [pdf_urls], each constructed and parsed in turn,
    before any is filtered out. *)
Fixpoint parse_each (pdf_urls : list str) : M (list PdfReport) :=
  match pdf_urls with
  | [] => ret []
  | u :: rest =>
      let* _ := print (Processing u) in
      let* report := parse (new_report u) in
      let* reports := parse_each rest in
      ret (report :: reports)
  end.

(** The URLs of the [Processing] lines of an output, in order. *)
Fixpoint processed (out : list line) : list str :=
  match out with
  | [] => []
  | Processing u :: out' => u :: processed out'
  | _ :: out' => processed out'
  end.

(** The content of [u] cannot be had in the world [w]: the request
    fails, or the response is empty, or [PdfReader] finds no page or
    raises. *)
Definition content_unavailable (u : str) (w : world) : Prop :=
  match fst (http_get u w) with
  | None => True
  | Some [] => True
  | Some (b :: bs) => first_page (b :: bs) = NoPages \/ first_page (b :: bs) = PdfError
  end.

(** The records the operations of [PdfReport] lead to from a new one. *)
Inductive reachable : PdfReport -> Prop :=
| reach_new u : reachable (new_report u)
| reach_parse_ochmo_id r : reachable r -> reachable (_parse_ochmo_id r)
| reach_parse_title r : reachable r -> reachable (_parse_title r)
| reach_fetch_pdf_content r st :
    reachable r -> reachable (fst (_fetch_pdf_content r st))
| reach_parse_technical_requirements r page_text :
    reachable r -> reachable (_parse_technical_requirements page_text r)
| reach_parse r st : reachable r -> reachable (fst (parse r st)).

End Collaborators.

End Scraper.
Import Scraper.

(* ===================================================================== *)
(** ** Specification-level notions                                        *)
(* ===================================================================== *)

Module Spec.

(** The words a pattern denotes, whatever the order in which the matcher
    finds them. *)
Fixpoint lang (r : regex) (w : str) : Prop :=
  match r with
  | Lit l => lower w = lower l
  | Sym p => exists c, w = [c] /\ p c = true
  | Cat r1 r2 => exists w1 w2, w = w1 ++ w2 /\ lang r1 w1 /\ lang r2 w2
  | Opt r1 => w = [] \/ lang r1 w
  | Plus p => w <> [] /\ forallb p w = true
  | Star p => forallb p w = true
  | StarLazy p => forallb p w = true
  | Group r1 => lang r1 w
  end.

(** [s] has a substring in [L]. *)
Definition occurs (L : str -> Prop) (s : str) : Prop :=
  exists pre w post, s = pre ++ w ++ post /\ L w.

(** [pre ++ w ++ post] with [w] in [L], and no word of [L] starts in the
    text before [w]. *)
Definition leftmost (L : str -> Prop) (pre w post : str) : Prop :=
  L w /\
  forall pre' w' post',
    pre ++ w ++ post = pre' ++ w' ++ post' -> L w' -> length pre <= length pre'.

(** [ws] are the words of [L] a left-to-right scan of [s] without
    overlap meets: each is leftmost in what the previous one left. *)
Inductive scan (L : str -> Prop) : str -> list str -> Prop :=
| scan_done s : ~ occurs L s -> scan L s []
| scan_hit pre w post ws :
    leftmost L pre w post -> w <> [] -> scan L post ws ->
    scan L (pre ++ w ++ post) (w :: ws).

(** What is left of the text after the way the matcher finds first
    satisfies [Q], wherever the pattern is matched. *)
Definition heads (r : regex) (Q : str -> Prop) : Prop :=
  forall s g x rest, exec r s g = x :: rest -> Q (snd x).

(** [post] does not go on with a character of the class [p]. *)
Definition ends_run (p : ascii -> bool) (post : str) : Prop :=
  match post with
  | c :: _ => p c = false
  | [] => True
  end.

(** The identifier token: [OCHMO-], an optional [M], [TB-] and digits,
    letters in either case. *)
Definition id_token (w : str) : Prop :=
  exists a m b d,
    w = a ++ m ++ b ++ d /\
    lower a = txt "ochmo-" /\
    (m = [] \/ lower m = txt "m") /\
    lower b = txt "tb-" /\
    d <> [] /\ forallb is_digit d = true.

(** [w] is a concatenation of words of the languages [Ps], in order. *)
Fixpoint in_sequence (Ps : list (str -> Prop)) (w : str) : Prop :=
  match Ps with
  | [] => w = []
  | P :: Ps' => exists a x, w = a ++ x /\ P a /\ in_sequence Ps' x
  end.

(** The literal [l], letters in either case. *)
Definition ci (l : string) (w : str) : Prop := lower w = lower (txt l).

Definition maybe (P : str -> Prop) (w : str) : Prop := w = [] \/ P w.

(** One character of the class [p]. *)
Definition one (p : ascii -> bool) (w : str) : Prop :=
  exists c, w = [c] /\ p c = true.

(** One or more characters of the class [p]. *)
Definition several (p : ascii -> bool) (w : str) : Prop :=
  w <> [] /\ forallb p w = true.

(** The standards citation as the pattern of the module has it: both
    hyphens are required, each with at most one whitespace character on
    either side. *)
Definition trd_citation : str -> Prop :=
  in_sequence
    [ci "NASA"; maybe (one is_space); ci "-"; maybe (one is_space);
     ci "STD"; maybe (one is_space); ci "-"; maybe (one is_space);
     several is_digit; one is_space; ci "Volume"; one is_space;
     one is_digit; ci ","; maybe (one is_space); ci "Rev";
     one is_space; one is_word].

(** The standards citation as the specification words it: each hyphen
    is optional. *)
Definition claimed_trd_citation : str -> Prop :=
  in_sequence
    [ci "NASA"; maybe (one is_space); maybe (ci "-"); maybe (one is_space);
     ci "STD"; maybe (one is_space); maybe (ci "-"); maybe (one is_space);
     several is_digit; one is_space; ci "Volume"; one is_space;
     one is_digit; ci ","; maybe (one is_space); ci "Rev";
     one is_space; one is_word].

(** What an operation leaves alone. *)
Definition same_head (r r' : PdfReport) : Prop :=
  url r' = url r /\ ochmo_id r' = ochmo_id r /\ title r' = title r.

Definition same_references (r r' : PdfReport) : Prop :=
  technical_requirements_docs r' = technical_requirements_docs r /\
  technical_requirements r' = technical_requirements r.

(** The invariant behind C6: the identifier, when set, is the one of the
    URL, and a title is set only beside an identifier. *)
Definition id_of_url (r : PdfReport) : Prop :=
  ochmo_id r = None \/ ochmo_id r = ochmo_id (_parse_ochmo_id r).

Definition title_beside_id (r : PdfReport) : Prop :=
  title r <> None -> ochmo_id r <> None.

End Spec.
Import Spec.

(* ===================================================================== *)
(** ** A test for patterns with one way to match                          *)
(* ===================================================================== *)

Module OneWay.

Definition all_ascii : list ascii := map ascii_of_nat (seq 0 256).

(** No character is in both classes. *)
Definition disjoint (p q : ascii -> bool) : bool :=
  forallb (fun c => negb (p c && q c)) all_ascii.

(** The pattern matches the empty string. *)
Fixpoint nullable (r : regex) : bool :=
  match r with
  | Lit [] => true
  | Lit (_ :: _) => false
  | Sym _ => false
  | Cat r1 r2 => nullable r1 && nullable r2
  | Opt _ => true
  | Plus _ => false
  | Star _ => true
  | StarLazy _ => true
  | Group r1 => nullable r1
  end.

(** The characters a match of [r] that goes on with a character of [fo]
    can start with. *)
Fixpoint first_chars (r : regex) (fo : ascii -> bool) : ascii -> bool :=
  match r with
  | Lit [] => fo
  | Lit (a :: _) => ci_eqb a
  | Sym p => p
  | Cat r1 r2 => first_chars r1 (first_chars r2 fo)
  | Opt r1 => fun c => first_chars r1 fo c || fo c
  | Plus p => p
  | Star p => fun c => p c || fo c
  | StarLazy p => fun c => p c || fo c
  | Group r1 => first_chars r1 fo
  end.

(** A sufficient test that the matcher has no choice when what follows
    [r] starts with a character of [fo]: at each option and each
    repetition, going on and stopping start with different characters. *)
Fixpoint one_way (r : regex) (fo : ascii -> bool) : bool :=
  match r with
  | Lit _ => true
  | Sym _ => true
  | Cat r1 r2 => one_way r1 (first_chars r2 fo) && one_way r2 fo
  | Opt r1 => negb (nullable r1) && disjoint (first_chars r1 fo) fo && one_way r1 fo
  | Plus p => disjoint p fo
  | Star p => disjoint p fo
  | StarLazy p => disjoint p fo
  | Group r1 => one_way r1 fo
  end.

Definition any_char (c : ascii) : bool := true.

(** No two words of [L] are at the head of the same text. *)
Definition prefix_free (L : str -> Prop) : Prop :=
  forall w1 x1 w2 x2, L w1 -> L w2 -> w1 ++ x1 = w2 ++ x2 -> w1 = w2.

(** What the rest of a pattern makes of a way of matching its start:
    it has at most one way, and none unless the text goes on with a
    character of [fo]. *)
Definition follows {X : Type} (fo : ascii -> bool)
  (K : option str * str -> list X) : Prop :=
  (forall x, length (K x) <= 1) /\
  (forall g c s', K (g, c :: s') <> [] -> fo c = true).

End OneWay.
Import OneWay.

(* ===================================================================== *)
(** ** Small worlds to run the module in                                  *)
(* ===================================================================== *)

Module Demo.

(** A network without state. *)
Definition world : Type := unit.

Definition listing_url : str :=
  txt "https://www.nasa.gov/ochmo/hsa-standards/ochmo-technical-briefs/".

Definition listing_page : bytes := [Byte.x3c; Byte.x61; Byte.x3e].

Definition document : bytes := [Byte.x25; Byte.x50; Byte.x44; Byte.x46].

(** The listing page is served; the documents are served when
    [serve_documents] is set, and their requests fail otherwise. *)
Definition http_get (serve_documents : bool) (u : str) (w : world)
  : option bytes * world :=
  if Urllib.str_eqb u listing_url then (Some listing_page, w)
  else if serve_documents then (Some document, w)
  else (None, w).

(** The listing page holds the links [hrefs]. *)
Definition html_hrefs (hrefs : list str) (page : bytes) : list str := hrefs.

(** The first page of every document reads [page_text]. *)
Definition first_page (page_text : str) (b : bytes) : pdf_outcome :=
  PageText page_text.

(** A network on which every request fails. *)
Definition offline (u : str) (w : world) : option bytes * world := (None, w).

Definition start : state world := (tt, []).

Definition brief_url : str :=
  txt "https://x/ochmo-mtb-123-crew-health-risk.pdf?v=1".

Definition brief_text : str :=
  txt "...per NASA-STD-3001 Volume 2, Rev A and [V2 104]...".


End Demo.

(* ===================================================================== *)
(** ** The rest of [PdfReport] and the script                             *)
(* ===================================================================== *)

Module Report.

Definition nl : ascii := ascii_of_nat 10.
Definition tab : ascii := ascii_of_nat 9.

(** An attribute inside an f-string: [None] is written [None]. *)
Definition format_opt (o : option str) : str :=
  match o with
  | Some s => s
  | None => txt "None"
  end.

(** [PdfReport.to_string_pretty] *)
Definition to_string_pretty (r : PdfReport) : str :=
  let report_str := txt "URL: " ++ url r ++ [nl] in
  let report_str := report_str ++ txt "OCHMO ID: " ++ format_opt (ochmo_id r) ++ [nl] in
  let report_str := report_str ++ txt "Title: " ++ format_opt (title r) ++ [nl] in
  let report_str := report_str ++ txt "Technical Requirements Docs:" ++ [nl; tab] in
  let report_str :=
    report_str ++ Urllib.join [nl; tab] (technical_requirements_docs r) ++ [nl] in
  let report_str := report_str ++ txt "Technical Requirements:" ++ [nl; tab] in
  let report_str := report_str ++ Urllib.join [nl; tab] (technical_requirements r) in
  report_str.

(** [PdfReport.__repr__] *)
Definition repr (r : PdfReport) : str :=
  txt "PdfReport(ochmo_id='" ++ format_opt (ochmo_id r) ++ txt "', title='"
      ++ format_opt (title r) ++ txt "')".

Definition BASE_URL : str :=
  txt "https://www.nasa.gov/ochmo/hsa-standards/ochmo-technical-briefs/".

Definition banner : str := [nl] ++ txt "--- Scraping Complete ---" ++ [nl].

Section Script.

Variable world : Type.
Variable http_get : str -> world -> option bytes * world.
Variable html_hrefs : bytes -> list str.
Variable urljoin : str -> str -> str.
Variable first_page : bytes -> pdf_outcome.

(** The script under [__main__]: the texts it prints once the scrape is
    over, in order; what the scrape prints before them is in the state. *)
Definition main : M world (list str) :=
  fun st =>
    let (all_reports, st') :=
      scrape_reports world http_get html_hrefs urljoin first_page BASE_URL (Some 3%Z) st in
    (banner :: map to_string_pretty all_reports, st').

End Script.

End Report.
Import Report.

(* ===================================================================== *)
(** ** What the extracted values look like                                *)
(* ===================================================================== *)

Module Shapes.

(** The identifier in its normal form: capitals, an optional [M],
    digits. *)
Definition canonical_id (w : str) : Prop :=
  exists m d,
    w = txt "OCHMO-" ++ m ++ txt "TB-" ++ d /\
    (m = [] \/ m = txt "M") /\
    d <> [] /\ forallb is_digit d = true.

(** The text the title pattern reads before the slug: the token and a
    hyphen. *)
Definition title_head : str -> Prop :=
  in_sequence [ci "ochmo-"; maybe (ci "m"); ci "tb-"; several is_digit; ci "-"].

(** The literal [l] does not start inside [slug], which [rest] follows. *)
Definition not_inside (l slug rest : str) : Prop :=
  forall a b, slug = a ++ b -> b <> [] -> strip_lit l (b ++ rest) = None.

(** Any number of characters of the class [p]. *)
Definition many (p : ascii -> bool) (w : str) : Prop := forallb p w = true.

(** A requirement code: [V], a digit, whitespace if any, digits. *)
Definition req_code : str -> Prop :=
  in_sequence [ci "V"; one is_digit; many is_space; several is_digit].

(** [code] between square brackets. *)
Definition bracketed (code : str) : str := txt "[" ++ code ++ txt "]".

(** The quotation mark [__repr__] puts around an attribute. *)
Definition quote : ascii := "'"%char.

End Shapes.
Import Shapes.

(* ===================================================================== *)
(** ** Links and their resolution                                         *)
(* ===================================================================== *)

Module Links.









End Links.
Import Links.

(** Splits a word along a sequence of patterns, one pattern at a time. *)
Ltac chain :=
  repeat match goal with
         | |- exists _ _, _ = _ ++ _ /\ _ =>
             do 2 eexists; split; [reflexivity|split; [eassumption|]]
         end.

(* ===================================================================== *)
(** ** The matcher against the words of a pattern                         *)
(* ===================================================================== *)

Section MatcherFacts.

Lemma strip_lit_sound (l s s' : str) :
  strip_lit l s = Some s' -> exists w, s = w ++ s' /\ lower w = lower l.
Proof.
  revert s. induction l as [|a l IH]; intros s H; simpl in H.
  - inversion H; subst. exists []. split; reflexivity.
  - destruct s as [|c s0]; [discriminate|].
    destruct (ci_eqb a c) eqn:E; [|discriminate].
    destruct (IH _ H) as (w & -> & Hw).
    exists (c :: w). split; [reflexivity|].
    unfold ci_eqb in E. apply Ascii.eqb_eq in E.
    simpl. rewrite Hw, E. reflexivity.
Qed.

Lemma strip_lit_complete (l w s' : str) :
  lower w = lower l -> strip_lit l (w ++ s') = Some s'.
Proof.
  revert w. induction l as [|a l IH]; intros w H.
  - destruct w; [reflexivity|discriminate].
  - destruct w as [|c w]; [discriminate|].
    simpl in H. injection H as Hc Hw.
    simpl. unfold ci_eqb. rewrite Hc, Ascii.eqb_refl. apply IH, Hw.
Qed.

Lemma greedy_sound p (s s' : str) :
  In s' (greedy p s) -> exists w, s = w ++ s' /\ forallb p w = true.
Proof.
  induction s as [|c s IH]; simpl; intros H.
  - destruct H as [<-|[]]. exists []. split; reflexivity.
  - destruct (p c) eqn:E.
    + apply in_app_or in H. destruct H as [H|[<-|[]]].
      * destruct (IH H) as (w & -> & Hw).
        exists (c :: w). simpl. rewrite E, Hw. split; reflexivity.
      * exists []. split; reflexivity.
    + destruct H as [<-|[]]. exists []. split; reflexivity.
Qed.

Lemma greedy_complete p (w s' : str) :
  forallb p w = true -> In s' (greedy p (w ++ s')).
Proof.
  induction w as [|c w IH]; simpl; intros H.
  - destruct s' as [|c s']; simpl; [now left|].
    destruct (p c); [apply in_or_app; right|]; now left.
  - apply andb_true_iff in H. destruct H as [Hc Hw]. rewrite Hc.
    apply in_or_app. left. apply IH, Hw.
Qed.

Lemma reluctant_sound p (s s' : str) :
  In s' (reluctant p s) -> exists w, s = w ++ s' /\ forallb p w = true.
Proof.
  induction s as [|c s IH]; simpl; intros H.
  - destruct H as [<-|[]]. exists []. split; reflexivity.
  - destruct (p c) eqn:E.
    + destruct H as [<-|H].
      * exists []. split; reflexivity.
      * destruct (IH H) as (w & -> & Hw).
        exists (c :: w). simpl. rewrite E, Hw. split; reflexivity.
    + destruct H as [<-|[]]. exists []. split; reflexivity.
Qed.

Lemma reluctant_complete p (w s' : str) :
  forallb p w = true -> In s' (reluctant p (w ++ s')).
Proof.
  induction w as [|c w IH]; simpl; intros H.
  - destruct s' as [|c s']; simpl; [now left|].
    destruct (p c); now left.
  - apply andb_true_iff in H. destruct H as [Hc Hw]. rewrite Hc.
    right. apply IH, Hw.
Qed.

Lemma consumed_app (w s' : str) : consumed (w ++ s') s' = w.
Proof.
  unfold consumed. rewrite length_app.
  replace (length w + length s' - length s') with (length w) by lia.
  rewrite firstn_app, Nat.sub_diag, firstn_all. simpl. apply app_nil_r.
Qed.

(** Every way the matcher finds consumes a word of the pattern. *)
Lemma exec_sound (r : regex) :
  forall s g g' s', In (g', s') (exec r s g) -> exists w, s = w ++ s' /\ lang r w.
Proof.
  induction r as [l|p|r1 IH1 r2 IH2|r1 IH1|p|p|p|r1 IH1]; intros s g g' s' H; simpl in *.
  - destruct (strip_lit l s) eqn:E; [|contradiction].
    destruct H as [H|[]]. inversion H; subst.
    apply strip_lit_sound in E. exact E.
  - destruct s as [|c s0]; [contradiction|].
    destruct (p c) eqn:E; [|contradiction].
    destruct H as [H|[]]. inversion H; subst.
    exists [c]. split; [reflexivity|]. exists c. auto.
  - apply in_flat_map in H. destruct H as ([g1 s1] & H1 & H2). simpl in H2.
    destruct (IH1 _ _ _ _ H1) as (w1 & -> & L1).
    destruct (IH2 _ _ _ _ H2) as (w2 & -> & L2).
    exists (w1 ++ w2). split; [now rewrite app_assoc|].
    exists w1, w2. auto.
  - apply in_app_or in H. destruct H as [H|[H|[]]].
    + destruct (IH1 _ _ _ _ H) as (w & -> & L). exists w. auto.
    + inversion H; subst. exists []. auto.
  - destruct s as [|c s0]; [contradiction|].
    destruct (p c) eqn:E; [|contradiction].
    apply in_map_iff in H. destruct H as (x & Hx & H). inversion Hx; subst.
    destruct (greedy_sound _ _ _ H) as (w & -> & Hw).
    exists (c :: w). split; [reflexivity|]. split; [discriminate|].
    simpl. now rewrite E, Hw.
  - apply in_map_iff in H. destruct H as (x & Hx & H). inversion Hx; subst.
    apply greedy_sound in H. exact H.
  - apply in_map_iff in H. destruct H as (x & Hx & H). inversion Hx; subst.
    apply reluctant_sound in H. exact H.
  - apply in_map_iff in H. destruct H as ([g1 s1] & Hx & H). inversion Hx; subst.
    apply IH1 in H. exact H.
Qed.

(** Every word of the pattern at the head of the text is found. *)
Lemma exec_complete (r : regex) :
  forall w s' g, lang r w -> exists g', In (g', s') (exec r (w ++ s') g).
Proof.
  induction r as [l|p|r1 IH1 r2 IH2|r1 IH1|p|p|p|r1 IH1]; intros w s' g L; simpl in *.
  - rewrite (strip_lit_complete _ _ _ L). exists g. now left.
  - destruct L as (c & -> & Hc). simpl. rewrite Hc. exists g. now left.
  - destruct L as (w1 & w2 & -> & L1 & L2).
    destruct (IH1 w1 (w2 ++ s') g L1) as (g1 & H1).
    destruct (IH2 w2 s' g1 L2) as (g2 & H2).
    exists g2. rewrite <- app_assoc. apply in_flat_map.
    exists (g1, w2 ++ s'). auto.
  - destruct L as [->|L].
    + exists g. apply in_or_app. right. now left.
    + destruct (IH1 w s' g L) as (g1 & H1). exists g1. apply in_or_app. now left.
  - destruct L as [Hne Hw]. destruct w as [|c w]; [congruence|].
    simpl in Hw. apply andb_true_iff in Hw. destruct Hw as [Hc Hw].
    simpl. rewrite Hc. exists g. apply in_map. now apply greedy_complete.
  - exists g. apply in_map. now apply greedy_complete.
  - exists g. apply in_map. now apply reluctant_complete.
  - destruct (IH1 w s' g L) as (g1 & H1).
    exists (Some (consumed (w ++ s') s')).
    apply in_map_iff. exists (g1, s'). auto.
Qed.

Lemma match_here_some (r : regex) (s : str) (m : Match) :
  match_here r s = Some m ->
  m_pre m = [] /\ s = group0 m ++ m_post m /\ lang r (group0 m).
Proof.
  unfold match_here. destruct (exec r s None) as [|[g s'] rest] eqn:E; [discriminate|].
  intros H. inversion H; subst; clear H. simpl.
  destruct (exec_sound r s None g s') as (w & -> & L).
  { rewrite E. now left. }
  rewrite consumed_app. auto.
Qed.

Lemma match_here_none (r : regex) (s : str) :
  match_here r s = None -> forall w post, s = w ++ post -> ~ lang r w.
Proof.
  unfold match_here. destruct (exec r s None) as [|[g s'] rest] eqn:E; [|discriminate].
  intros _ w post -> L.
  destruct (exec_complete r w post None L) as (g' & H).
  rewrite E in H. contradiction.
Qed.

(** [re.search] returns a leftmost word of the pattern. *)
Lemma search_some (r : regex) (s : str) (m : Match) :
  search r s = Some m ->
  s = m_pre m ++ group0 m ++ m_post m /\
  leftmost (lang r) (m_pre m) (group0 m) (m_post m).
Proof.
  revert m. induction s as [|c s IH]; intros m H; simpl in H.
  - destruct (match_here r []) eqn:E; [|discriminate].
    inversion H; subst. destruct (match_here_some _ _ _ E) as (Hp & Hs & L).
    rewrite Hp. simpl. split; [exact Hs|]. split; [exact L|]. intros. simpl. lia.
  - destruct (match_here r (c :: s)) eqn:E.
    + inversion H; subst. destruct (match_here_some _ _ _ E) as (Hp & Hs & L).
      rewrite Hp. simpl. split; [exact Hs|]. split; [exact L|]. intros. simpl. lia.
    + destruct (search r s) as [m0|] eqn:E0; [|discriminate].
      simpl in H. inversion H; subst; clear H.
      destruct (IH m0 eq_refl) as (Hs & L & Hleft). simpl.
      split; [now rewrite Hs at 1|]. split; [exact L|].
      intros pre' w' post' Heq Lw'.
      destruct pre' as [|c' pre'].
      * exfalso. simpl in Heq. rewrite <- Hs in Heq.
        exact (match_here_none _ _ E _ _ Heq Lw').
      * simpl in Heq. injection Heq as _ Heq. simpl.
        apply le_n_S. eapply Hleft; eauto.
Qed.

(** [re.search] returns [None] only when no substring is a word of the
    pattern. *)
Lemma search_none (r : regex) (s : str) :
  search r s = None -> ~ occurs (lang r) s.
Proof.
  induction s as [|c s IH]; simpl; intros H (pre & w & post & Heq & L).
  - destruct (match_here r []) eqn:E; [discriminate|].
    destruct pre; [|discriminate]. simpl in Heq.
    exact (match_here_none _ _ E _ _ Heq L).
  - destruct (match_here r (c :: s)) eqn:E; [discriminate|].
    destruct (search r s) eqn:E0; [discriminate|].
    destruct pre as [|c' pre].
    + simpl in Heq. exact (match_here_none _ _ E _ _ Heq L).
    + injection Heq as _ Heq. apply (IH eq_refl). exists pre, w, post. auto.
Qed.

Lemma search_occurs (r : regex) (s : str) :
  occurs (lang r) s -> exists m, search r s = Some m.
Proof.
  intros H. destruct (search r s) eqn:E; [eauto|].
  exfalso. exact (search_none _ _ E H).
Qed.

Lemma match_here_advancing_some (r : regex) (s : str) (m : Match) :
  match_here_advancing r s = Some m ->
  m_pre m = [] /\ s = group0 m ++ m_post m /\ group0 m <> [].
Proof.
  unfold match_here_advancing.
  destruct (filter _ (exec r s None)) as [|[g s'] rest] eqn:E; [discriminate|].
  intros H. inversion H; subst; clear H. simpl.
  assert (Hin : In (g, s') (filter (fun gs => negb (length (snd gs) =? length s))
                                   (exec r s None))).
  { rewrite E. now left. }
  apply filter_In in Hin. destruct Hin as [Hin Hlen]. simpl in Hlen.
  destruct (exec_sound r s None g s' Hin) as (w & -> & _).
  rewrite consumed_app. repeat split.
  intros ->. simpl in Hlen. rewrite Nat.eqb_refl in Hlen. discriminate.
Qed.

(** What a step of the scan leaves is shorter than what it was given,
    or as long after an empty match, which is not taken twice. *)
Lemma scan_step_decreases (r : regex) (must_advance : bool) (s : str) (m : Match) :
  (if must_advance then search_advancing r s else search r s) = Some m ->
  2 * length (m_post m) + (if is_empty (group0 m) then 0 else 1)
  < 2 * length s + (if must_advance then 0 else 1).
Proof.
  intros H.
  assert (Hs : s = m_pre m ++ group0 m ++ m_post m /\
               (must_advance = true -> m_pre m = [] -> group0 m <> [])).
  { destruct must_advance.
    - unfold search_advancing in H.
      destruct (match_here_advancing r s) as [m0|] eqn:E.
      + inversion H; subst.
        destruct (match_here_advancing_some _ _ _ E) as (Hp & Hs & Hne).
        rewrite Hp. auto.
      + destruct s as [|c s']; [discriminate|].
        destruct (search r s') as [m0|] eqn:E0; [|discriminate].
        inversion H; subst. destruct (search_some _ _ _ E0) as [Hs _].
        simpl. split; [now rewrite Hs at 1|]. intros _ Hnil. discriminate.
    - destruct (search_some _ _ _ H) as [Hs _]. split; [exact Hs|discriminate]. }
  destruct Hs as [Hs Hadv]. rewrite Hs at 1. rewrite !length_app.
  destruct (group0 m) as [|c w]; simpl.
  - destruct must_advance.
    + destruct (m_pre m) as [|d pre]; [now contradiction (Hadv eq_refl eq_refl)|].
      simpl. lia.
    + lia.
  - destruct must_advance; lia.
Qed.

Lemma finditer_loop_enough (r : regex) (n k : nat) :
  forall must_advance s,
    2 * length s + (if must_advance : bool then 0 else 1) < n ->
    2 * length s + (if must_advance : bool then 0 else 1) < k ->
    finditer_loop n r must_advance s = finditer_loop k r must_advance s.
Proof.
  revert k. induction n as [|n IH]; intros k must_advance s Hn Hk; [lia|].
  destruct k as [|k]; [lia|]. simpl.
  destruct (if must_advance then search_advancing r s else search r s) as [m|] eqn:E;
    [|reflexivity].
  pose proof (scan_step_decreases _ _ _ _ E). f_equal. apply IH; lia.
Qed.

(** The loop of [re.finditer]: the fuel [finditer] gives is enough. *)
Lemma finditer_unfold (r : regex) (s : str) :
  finditer r s =
  match search r s with
  | None => []
  | Some m => m :: finditer_from r (is_empty (group0 m)) (m_post m)
  end.
Proof.
  unfold finditer, finditer_from at 1.
  replace (2 * length s + 2) with (S (2 * length s + 1)) by lia. simpl.
  destruct (search r s) as [m|] eqn:E; [|reflexivity].
  f_equal. unfold finditer_from.
  pose proof (scan_step_decreases r false s m E) as Hdec.
  apply finditer_loop_enough; destruct (is_empty (group0 m)); simpl in *; lia.
Qed.

(** After a match that is not empty the scan goes on as from the start. *)
Lemma finditer_unfold_nonempty (r : regex) (s : str) :
  (forall w, lang r w -> w <> []) ->
  finditer r s =
  match search r s with
  | None => []
  | Some m => m :: finditer r (m_post m)
  end.
Proof.
  intros Hne. rewrite finditer_unfold.
  destruct (search r s) as [m|] eqn:E; [|reflexivity].
  destruct (search_some _ _ _ E) as (_ & L & _).
  pose proof (Hne _ L) as Hw.
  destruct (group0 m); [congruence|reflexivity].
Qed.

Lemma search_shorter (r : regex) (s : str) (m : Match) :
  search r s = Some m -> group0 m <> [] -> length (m_post m) < length s.
Proof.
  intros E Hw. destruct (search_some _ _ _ E) as [Hs _].
  rewrite Hs at 1. rewrite !length_app.
  destruct (group0 m); [congruence|simpl; lia].
Qed.

(** For a pattern without the empty word, the matches of [re.finditer]
    are the words a left-to-right scan without overlap meets. *)
Lemma finditer_scan (r : regex) :
  (forall w, lang r w -> w <> []) ->
  forall s, scan (lang r) s (map group0 (finditer r s)).
Proof.
  intros Hne s.
  remember (length s) as n eqn:Hn. revert s Hn.
  induction n as [n IH] using lt_wf_ind. intros s Hn.
  rewrite (finditer_unfold_nonempty r s Hne).
  destruct (search r s) as [m|] eqn:E.
  - destruct (search_some _ _ _ E) as (Hs & L).
    pose proof (Hne _ (proj1 L)) as Hw.
    simpl. rewrite Hs at 1.
    apply scan_hit; auto.
    apply (IH (length (m_post m))); [|reflexivity].
    subst n. apply (search_shorter _ _ _ E Hw).
  - simpl. apply scan_done. apply search_none, E.
Qed.

Lemma occurs_ext (L L' : str -> Prop) (s : str) :
  (forall w, L w -> L' w) -> occurs L s -> occurs L' s.
Proof.
  intros HL (pre & w & post & Heq & Hw). exists pre, w, post. auto.
Qed.

Lemma leftmost_ext (L L' : str -> Prop) (pre w post : str) :
  (forall w, L w <-> L' w) -> leftmost L pre w post -> leftmost L' pre w post.
Proof.
  intros HL [Hw Hleft]. split; [now apply HL|].
  intros pre' w' post' Heq Hw'. apply (Hleft pre' w' post' Heq). now apply HL.
Qed.

Lemma flat_map_head {A B} (f : A -> list B) (l : list A) (x : B) (rest : list B) :
  flat_map f l = x :: rest -> exists a rest', In a l /\ f a = x :: rest'.
Proof.
  induction l as [|a l IH]; simpl; intros H; [discriminate|].
  destruct (f a) as [|y ys] eqn:E.
  - destruct (IH H) as (a' & rest' & Ha & Hf). exists a', rest'. auto.
  - simpl in H. inversion H; subst. exists a, ys. auto.
Qed.

Lemma heads_cat (r1 r2 : regex) (Q : str -> Prop) :
  heads r2 Q -> heads (Cat r1 r2) Q.
Proof.
  intros H s g x rest E. simpl in E.
  apply flat_map_head in E. destruct E as (a & rest' & _ & E).
  exact (H _ _ _ _ E).
Qed.

Lemma heads_group (r : regex) (Q : str -> Prop) :
  heads r Q -> heads (Group r) Q.
Proof.
  intros H s g x rest E. simpl in E.
  destruct (exec r s g) as [|y ys] eqn:E'; [discriminate|].
  simpl in E. inversion E; subst. simpl. exact (H _ _ _ _ E').
Qed.

Lemma greedy_head (p : ascii -> bool) (s : str) :
  exists s' rest, greedy p s = s' :: rest /\ ends_run p s'.
Proof.
  induction s as [|c s IH]; simpl.
  - exists [], []. split; [reflexivity|exact I].
  - destruct (p c) eqn:E.
    + destruct IH as (s' & rest & -> & Hs'). exists s', (rest ++ [c :: s]). auto.
    + exists (c :: s), []. auto.
Qed.

Lemma heads_plus (p : ascii -> bool) : heads (Plus p) (ends_run p).
Proof.
  intros s g x rest E. simpl in E.
  destruct s as [|c s]; [discriminate|].
  destruct (p c); [|discriminate].
  destruct (greedy_head p s) as (s' & rest' & Hg & Hs'). rewrite Hg in E.
  simpl in E. inversion E; subst. exact Hs'.
Qed.

Lemma match_here_heads (r : regex) (Q : str -> Prop) (s : str) (m : Match) :
  heads r Q -> match_here r s = Some m -> Q (m_post m).
Proof.
  unfold match_here. intros H E.
  destruct (exec r s None) as [|[g s'] rest] eqn:E'; [discriminate|].
  inversion E; subst. simpl. exact (H _ _ _ _ E').
Qed.

Lemma search_heads (r : regex) (Q : str -> Prop) (s : str) (m : Match) :
  heads r Q -> search r s = Some m -> Q (m_post m).
Proof.
  intros H. revert m. induction s as [|c s IH]; intros m E; simpl in E.
  - destruct (match_here r []) eqn:E'; [|discriminate].
    inversion E; subst. exact (match_here_heads _ _ _ _ H E').
  - destruct (match_here r (c :: s)) eqn:E'.
    + inversion E; subst. exact (match_here_heads _ _ _ _ H E').
    + destruct (search r s) as [m0|]; [|discriminate].
      inversion E; subst. simpl. apply IH. reflexivity.
Qed.

(** A pattern that is one group: [group(1)] is the whole match. *)
Lemma search_group (r : regex) (s : str) (m : Match) :
  search (Group r) s = Some m -> group1 m = Some (group0 m).
Proof.
  revert m. induction s as [|c s IH]; intros m E; simpl in E.
  - unfold match_here in E. simpl in E.
    destruct (exec r [] None) as [|[g s'] rest]; [discriminate|].
    simpl in E. inversion E; subst. reflexivity.
  - destruct (match_here (Group r) (c :: s)) eqn:E'.
    + inversion E; subst. unfold match_here in E'. simpl in E'.
      destruct (exec r (c :: s) None) as [|[g s'] rest]; [discriminate|].
      simpl in E'. inversion E'; subst. reflexivity.
    + destruct (search (Group r) s) as [m0|]; [|discriminate].
      inversion E; subst. simpl. apply IH. reflexivity.
Qed.

End MatcherFacts.

(* ===================================================================== *)
(** ** The identifier                                                     *)
(* ===================================================================== *)

Section Identifier.

Lemma id_re_token (w : str) : lang id_re w <-> id_token w.
Proof.
  unfold id_token. simpl. split.
  - intros (a & x & -> & Ha & m & y & -> & Hm & b & d & -> & Hb & Hd & Hd').
    exists a, m, b, d. repeat split; auto.
  - intros (a & m & b & d & -> & Ha & Hm & Hb & Hd & Hd').
    exists a, (m ++ b ++ d). repeat split; auto.
    exists m, (b ++ d). repeat split; auto.
    exists b, d. repeat split; auto.
Qed.

Lemma id_re_heads : heads id_re (ends_run is_digit).
Proof.
  unfold id_re. apply heads_group. do 3 apply heads_cat. apply heads_plus.
Qed.

(** C5. [_parse_ochmo_id] on a URL that holds an identifier token sets
    [ochmo_id] to the first token, uppercased: the token that starts
    leftmost, with all the digits that follow it.  On a URL that holds no
    token it sets [ochmo_id] to [None].  The function is total: there is
    no input on which it fails. *)
Theorem parse_ochmo_id_first_token (r : PdfReport) :
  (occurs id_token (url r) ->
   exists pre w post,
     url r = pre ++ w ++ post /\
     leftmost id_token pre w post /\
     ends_run is_digit post /\
     ochmo_id (_parse_ochmo_id r) = Some (upper w))
  /\
  (~ occurs id_token (url r) -> ochmo_id (_parse_ochmo_id r) = None).
Proof.
  unfold _parse_ochmo_id. split.
  - intros Hocc.
    destruct (search_occurs id_re (url r)) as (m & E).
    { apply (occurs_ext id_token); [|exact Hocc]. intros w. apply id_re_token. }
    rewrite E. simpl.
    destruct (search_some _ _ _ E) as (Hs & L).
    exists (m_pre m), (group0 m), (m_post m). repeat split.
    + exact Hs.
    + apply id_re_token, L.
    + intros pre' w' post' Heq Hw'. destruct L as [_ Hleft].
      apply (Hleft pre' w' post' Heq). apply id_re_token, Hw'.
    + exact (search_heads _ _ _ _ id_re_heads E).
    + unfold group_1. unfold id_re in E. rewrite (search_group _ _ _ E). reflexivity.
  - intros Hno. destruct (search id_re (url r)) as [m|] eqn:E; [|reflexivity].
    exfalso. apply Hno. destruct (search_some _ _ _ E) as (Hs & L & _).
    exists (m_pre m), (group0 m), (m_post m). split; [exact Hs|]. apply id_re_token, L.
Qed.

End Identifier.

(* ===================================================================== *)
(** ** One document                                                       *)
(* ===================================================================== *)

Section Document.

Variable world : Type.
Variable http_get : str -> world -> option bytes * world.
Variable first_page : bytes -> pdf_outcome.

Local Abbreviation parse := (parse world http_get first_page).
Local Abbreviation _fetch_pdf_content := (_fetch_pdf_content world http_get).

Lemma fetch_pdf_content_head (r : PdfReport) (st : state world) :
  same_head r (fst (_fetch_pdf_content r st)) /\
  same_references r (fst (_fetch_pdf_content r st)).
Proof.
  unfold _fetch_pdf_content, Scraper._fetch_pdf_content, bind, get, print, ret.
  destruct (_pdf_bytes r); simpl.
  - repeat split.
  - destruct (http_get (url r) (fst st)) as [[content|] w]; simpl; repeat split.
Qed.

Lemma parse_technical_requirements_head (t : str) (r : PdfReport) :
  same_head r (_parse_technical_requirements t r).
Proof. repeat split. Qed.

Lemma parse_title_id (r : PdfReport) :
  url (_parse_title r) = url r /\ ochmo_id (_parse_title r) = ochmo_id r.
Proof.
  unfold _parse_title. destruct (negb (truthy (ochmo_id r))); [auto|].
  destruct (search title_re (url r)); auto.
Qed.

Lemma head_ops_rest_bytes (r : PdfReport) :
  _pdf_bytes (_parse_title (_parse_ochmo_id r)) = _pdf_bytes r /\
  url (_parse_title (_parse_ochmo_id r)) = url r.
Proof.
  assert (Ht : forall r0, _pdf_bytes (_parse_title r0) = _pdf_bytes r0 /\
                         url (_parse_title r0) = url r0).
  { intros r0. unfold _parse_title.
    destruct (negb (truthy (ochmo_id r0))); [auto|].
    destruct (search title_re (url r0)); simpl; auto. }
  destruct (Ht (_parse_ochmo_id r)) as (-> & ->).
  unfold _parse_ochmo_id. destruct (search id_re (url r)); simpl; auto.
Qed.

(** [parse] leaves the URL alone and takes the identifier and the title
    from the URL alone. *)
Lemma parse_head (r : PdfReport) (st : state world) :
  same_head (_parse_title (_parse_ochmo_id r)) (fst (parse r st)).
Proof.
  unfold parse, Scraper.parse, bind, ret.
  set (r2 := _parse_title (_parse_ochmo_id r)).
  pose proof (fetch_pdf_content_head r2 st) as [H _].
  destruct (_fetch_pdf_content r2 st) as [r3 st'] eqn:E. simpl in H.
  destruct (_pdf_bytes r3) as [[|b bs]|]; simpl; try exact H.
  destruct (first_page (b :: bs)); simpl; exact H.
Qed.

Lemma id_token_nonempty (w : str) : lang id_re w -> w <> [].
Proof.
  intros (a & x & -> & Ha & _). destruct a; [discriminate|discriminate].
Qed.

(** The identifier [_parse_ochmo_id] sets is never the empty string, so
    that its truth value tells whether it is [None]. *)
Lemma parse_ochmo_id_truthy (r : PdfReport) :
  truthy (ochmo_id (_parse_ochmo_id r)) = is_some (ochmo_id (_parse_ochmo_id r)).
Proof.
  unfold _parse_ochmo_id. destruct (search id_re (url r)) as [m|] eqn:E; [|reflexivity].
  simpl. unfold group_1. unfold id_re in E. rewrite (search_group _ _ _ E).
  destruct (search_some _ _ _ E) as (_ & L & _).
  apply id_token_nonempty in L. destruct (group0 m); [congruence|reflexivity].
Qed.

Lemma parse_truthy (r : PdfReport) (st : state world) :
  truthy (ochmo_id (fst (parse r st))) = is_some (ochmo_id (fst (parse r st))).
Proof.
  destruct (parse_head r st) as (_ & Hid & _). rewrite Hid.
  destruct (parse_title_id (_parse_ochmo_id r)) as [_ ->].
  apply parse_ochmo_id_truthy.
Qed.

Lemma parse_url (u : str) (st : state world) :
  url (fst (parse (new_report u) st)) = u.
Proof.
  destruct (parse_head (new_report u) st) as (Hu & _). rewrite Hu.
  destruct (parse_title_id (_parse_ochmo_id (new_report u))) as [-> _].
  unfold _parse_ochmo_id. destruct (search id_re (url (new_report u))); reflexivity.
Qed.

End Document.

Section TwoWorlds.

Variables world1 world2 : Type.
Variable http_get1 : str -> world1 -> option bytes * world1.
Variable http_get2 : str -> world2 -> option bytes * world2.
Variable first_page : bytes -> pdf_outcome.

(** X1.  Parsing two new records of the same URL gives the same record
    whenever the two requests return the same bytes (or both fail),
    whatever else the two networks hold and whatever was printed. *)
Theorem parse_new_record_deterministic
  (u : str) (st1 : state world1) (st2 : state world2) :
  fst (http_get1 u (fst st1)) = fst (http_get2 u (fst st2)) ->
  fst (parse world1 http_get1 first_page (new_report u) st1) =
  fst (parse world2 http_get2 first_page (new_report u) st2).
Proof.
  intros Hget. unfold parse, _fetch_pdf_content, bind, get, print, ret.
  set (r2 := _parse_title (_parse_ochmo_id (new_report u))).
  destruct (head_ops_rest_bytes (new_report u)) as [Hb Hu]. fold r2 in Hb, Hu.
  simpl in Hb, Hu. rewrite Hb, Hu.
  destruct (http_get1 u (fst st1)) as [resp1 w1].
  destruct (http_get2 u (fst st2)) as [resp2 w2].
  simpl in Hget. subst resp2.
  destruct resp1 as [[|b bs]|]; simpl.
  - reflexivity.
  - destruct (first_page (b :: bs)); reflexivity.
  - reflexivity.
Qed.

End TwoWorlds.

Section DocumentInvariant.

Variable world : Type.
Variable http_get : str -> world -> option bytes * world.
Variable first_page : bytes -> pdf_outcome.

Local Abbreviation reachable := (reachable world http_get first_page).

Lemma parse_ochmo_id_again (r : PdfReport) :
  ochmo_id (_parse_ochmo_id (_parse_ochmo_id r)) = ochmo_id (_parse_ochmo_id r).
Proof.
  unfold _parse_ochmo_id. destruct (search id_re (url r)) eqn:E; simpl; rewrite E; reflexivity.
Qed.

Lemma id_of_url_ext (r r' : PdfReport) :
  url r' = url r -> ochmo_id r' = ochmo_id r -> id_of_url r -> id_of_url r'.
Proof.
  intros Hu Hi Hid. unfold id_of_url in *. rewrite Hi.
  destruct Hid as [Hid|Hid]; [now left|right].
  rewrite Hid. unfold _parse_ochmo_id. rewrite Hu.
  destruct (search id_re (url r)); reflexivity.
Qed.

Lemma invariant_parse_ochmo_id (r : PdfReport) :
  id_of_url r /\ title_beside_id r ->
  id_of_url (_parse_ochmo_id r) /\ title_beside_id (_parse_ochmo_id r).
Proof.
  intros [Hid Ht]. split.
  - right. symmetry. apply parse_ochmo_id_again.
  - intros Htitle.
    assert (Htitle' : title r <> None).
    { revert Htitle. unfold _parse_ochmo_id. destruct (search id_re (url r)); exact id. }
    specialize (Ht Htitle'). destruct Hid as [Hid|Hid]; congruence.
Qed.

Lemma invariant_parse_title (r : PdfReport) :
  id_of_url r /\ title_beside_id r ->
  id_of_url (_parse_title r) /\ title_beside_id (_parse_title r).
Proof.
  intros [Hid Ht]. unfold _parse_title.
  destruct (truthy (ochmo_id r)) eqn:E; simpl; [|auto].
  assert (Hsome : ochmo_id r <> None).
  { destruct (ochmo_id r); [discriminate|discriminate]. }
  destruct (search title_re (url r));
    (split; [apply (id_of_url_ext r); [reflexivity|reflexivity|exact Hid]
            | intros _; exact Hsome]).
Qed.

Lemma invariant_same_head (r r' : PdfReport) :
  same_head r r' -> id_of_url r /\ title_beside_id r ->
  id_of_url r' /\ title_beside_id r'.
Proof.
  intros (Hu & Hi & Ht) [Hid Htb]. split.
  - now apply (id_of_url_ext r).
  - unfold title_beside_id in *. now rewrite Hi, Ht.
Qed.

Lemma reachable_invariant (r : PdfReport) :
  reachable r -> id_of_url r /\ title_beside_id r.
Proof.
  induction 1 as [u|r _ IH|r _ IH|r st _ IH|r t _ IH|r st _ IH].
  - split; [now left|]. intros H. now contradiction H.
  - now apply invariant_parse_ochmo_id.
  - now apply invariant_parse_title.
  - apply (invariant_same_head r); [|exact IH].
    apply fetch_pdf_content_head.
  - apply (invariant_same_head r); [|exact IH].
    apply parse_technical_requirements_head.
  - apply (invariant_same_head (_parse_title (_parse_ochmo_id r))).
    + apply parse_head.
    + now apply invariant_parse_title, invariant_parse_ochmo_id.
Qed.

(** C6. On every record the operations of [PdfReport] lead to from a new
    one, and so at every point after parsing, a null identifier comes with
    a null title. *)
Theorem title_null_when_identifier_null (r : PdfReport) :
  reachable r -> ochmo_id r = None -> title r = None.
Proof.
  intros Hr Hid. destruct (reachable_invariant r Hr) as [_ Ht].
  destruct (title r) eqn:E; [|reflexivity].
  exfalso. apply Ht; [rewrite E; discriminate|exact Hid].
Qed.

End DocumentInvariant.

(* ===================================================================== *)
(** ** The collection                                                     *)
(* ===================================================================== *)

Section Collection.

Variable world : Type.
Variable http_get : str -> world -> option bytes * world.
Variable html_hrefs : bytes -> list str.
Variable urljoin : str -> str -> str.
Variable first_page : bytes -> pdf_outcome.

Local Abbreviation parse := (parse world http_get first_page).
Local Abbreviation parse_each := (parse_each world http_get first_page).
Local Abbreviation scrape_loop := (scrape_loop world http_get first_page).
Local Abbreviation _list_pdf_links := (_list_pdf_links world http_get html_hrefs urljoin).
Local Abbreviation scrape_reports :=
  (scrape_reports world http_get html_hrefs urljoin first_page).
Local Abbreviation content_unavailable := (content_unavailable world http_get first_page).

Lemma processed_app (a b : list line) :
  processed (a ++ b) = processed a ++ processed b.
Proof.
  induction a as [|l a IH]; simpl; [reflexivity|].
  destruct l; simpl; rewrite IH; reflexivity.
Qed.

Lemma head_ops_rest (r : PdfReport) :
  _pdf_bytes (_parse_title (_parse_ochmo_id r)) = _pdf_bytes r /\
  same_references r (_parse_title (_parse_ochmo_id r)).
Proof.
  assert (Ht : forall r0, _pdf_bytes (_parse_title r0) = _pdf_bytes r0 /\
                         same_references r0 (_parse_title r0)).
  { intros r0. unfold _parse_title, same_references.
    destruct (negb (truthy (ochmo_id r0))); [auto|].
    destruct (search title_re (url r0)); simpl; auto. }
  destruct (Ht (_parse_ochmo_id r)) as (Hb & Hd & Hq).
  unfold same_references. rewrite Hb, Hd, Hq.
  unfold _parse_ochmo_id. destruct (search id_re (url r)); simpl; auto.
Qed.

(** [parse] prints no [Processing] line. *)
Lemma parse_processed (r : PdfReport) (st : state world) :
  processed (snd (snd (parse r st))) = processed (snd st).
Proof.
  unfold parse, Scraper.parse, _fetch_pdf_content, bind, get, print, ret.
  set (r2 := _parse_title (_parse_ochmo_id r)).
  destruct (_pdf_bytes r2) as [[|b bs]|] eqn:E; simpl; try rewrite E; simpl.
  - reflexivity.
  - destruct (first_page (b :: bs)); simpl; try reflexivity.
    rewrite processed_app. simpl. apply app_nil_r.
  - destruct (http_get (url r2) (fst st)) as [[[|b bs]|] w]; simpl.
    + reflexivity.
    + destruct (first_page (b :: bs)); simpl; try reflexivity.
      rewrite processed_app. simpl. apply app_nil_r.
    + rewrite processed_app. simpl. apply app_nil_r.
Qed.

Lemma parse_each_urls (urls : list str) (st : state world) :
  map url (fst (parse_each urls st)) = urls.
Proof.
  revert st. induction urls as [|u urls IH]; intros st; [reflexivity|].
  simpl. unfold bind, print, ret. simpl.
  destruct (parse (new_report u) _) as [r st1] eqn:E.
  specialize (IH st1). destruct (parse_each urls st1) as [rs st2]. simpl in *.
  rewrite IH. f_equal.
  change r with (fst (r, st1)). rewrite <- E. apply parse_url.
Qed.

Lemma parse_each_processed (urls : list str) (st : state world) :
  processed (snd (snd (parse_each urls st))) = processed (snd st) ++ urls.
Proof.
  revert st. induction urls as [|u urls IH]; intros st.
  - simpl. now rewrite app_nil_r.
  - simpl. unfold bind, print, ret. simpl.
    destruct (parse (new_report u) _) as [r st1] eqn:E.
    specialize (IH st1). destruct (parse_each urls st1) as [rs st2]. simpl in *.
    rewrite IH. change st1 with (snd (r, st1)). rewrite <- E.
    rewrite parse_processed. simpl. rewrite processed_app. simpl.
    now rewrite <- app_assoc.
Qed.

Lemma parse_each_truthy (urls : list str) (st : state world) :
  Forall (fun r => truthy (ochmo_id r) = is_some (ochmo_id r))
         (fst (parse_each urls st)).
Proof.
  revert st. induction urls as [|u urls IH]; intros st; [constructor|].
  simpl. unfold bind, print, ret. simpl.
  destruct (parse (new_report u) _) as [r st1] eqn:E.
  specialize (IH st1). destruct (parse_each urls st1) as [rs st2]. simpl in *.
  constructor; [|exact IH].
  change r with (fst (r, st1)). rewrite <- E. apply parse_truthy.
Qed.

(** The loop keeps, of the records parsed in turn, those whose
    identifier is true, after the ones it was given. *)
Lemma scrape_loop_parse_each (urls : list str) (acc : list PdfReport) (st : state world) :
  scrape_loop urls acc st =
  (acc ++ filter (fun r => truthy (ochmo_id r)) (fst (parse_each urls st)),
   snd (parse_each urls st)).
Proof.
  revert acc st. induction urls as [|u urls IH]; intros acc st.
  - simpl. unfold ret. now rewrite app_nil_r.
  - simpl. unfold bind, print, ret. simpl.
    destruct (parse (new_report u) _) as [r st1] eqn:E.
    rewrite IH. destruct (parse_each urls st1) as [rs st2]. simpl.
    destruct (truthy (ochmo_id r)); simpl; [|reflexivity].
    now rewrite <- app_assoc.
Qed.

Lemma scrape_loop_app (us1 us2 : list str) (acc : list PdfReport) (st : state world) :
  scrape_loop (us1 ++ us2) acc st =
  scrape_loop us2 (fst (scrape_loop us1 acc st)) (snd (scrape_loop us1 acc st)).
Proof.
  revert acc st. induction us1 as [|u us1 IH]; intros acc st; [reflexivity|].
  simpl. unfold bind, print, ret. simpl.
  destruct (parse (new_report u) _) as [r st1]. apply IH.
Qed.

Lemma list_pdf_links_processed (base : str) (st : state world) :
  processed (snd (snd (_list_pdf_links base st))) = processed (snd st).
Proof.
  unfold _list_pdf_links, Scraper._list_pdf_links, bind, get, print, ret.
  destruct (http_get base (fst st)) as [[content|] w]; simpl; [reflexivity|].
  rewrite processed_app. simpl. apply app_nil_r.
Qed.

Lemma scrape_reports_unfold (base : str) (limit : option Z) (st : state world) :
  scrape_reports base limit st =
  scrape_loop (slice_to (fst (_list_pdf_links base st)) limit) []
              (snd (_list_pdf_links base st)).
Proof.
  unfold scrape_reports, Scraper.scrape_reports, bind.
  destruct (_list_pdf_links base st) as [links st1]. reflexivity.
Qed.

(** C1. The list [scrape_reports] returns is, of the records parsed in
    turn for the URLs of the truncated discovery list (one a URL, in the
    order of the list), the sublist of those whose [ochmo_id] is not
    [None], in the same order. *)
Theorem scrape_reports_filter_law (base : str) (limit : option Z) (st : state world) :
  let links := fst (_list_pdf_links base st) in
  let st1 := snd (_list_pdf_links base st) in
  let pdf_urls := slice_to links limit in
  let records := fst (parse_each pdf_urls st1) in
  map url records = pdf_urls /\
  scrape_reports base limit st =
  (filter (fun r => is_some (ochmo_id r)) records, snd (parse_each pdf_urls st1)).
Proof.
  intros links st1 pdf_urls records. split.
  - apply parse_each_urls.
  - rewrite scrape_reports_unfold. fold links st1 pdf_urls.
    rewrite scrape_loop_parse_each. simpl. fold records. f_equal.
    apply filter_ext_in. intros r Hr.
    pose proof (parse_each_truthy pdf_urls st1) as Hall.
    rewrite Forall_forall in Hall. exact (Hall r Hr).
Qed.

Lemma slice_to_nonneg {A} (xs : list A) (k : nat) :
  slice_to xs (Some (Z.of_nat k)) = firstn k xs.
Proof.
  unfold slice_to.
  destruct (Z.of_nat k <? 0)%Z eqn:E; [apply Z.ltb_lt in E; lia|].
  destruct (Nat.le_gt_cases k (length xs)) as [H|H].
  - rewrite Z.min_l by lia. now rewrite Nat2Z.id.
  - rewrite Z.min_r by lia. rewrite Nat2Z.id.
    rewrite firstn_all. symmetry. apply firstn_all2. lia.
Qed.

Lemma slice_to_negative {A} (xs : list A) (k : nat) :
  slice_to xs (Some (- Z.of_nat (S k))%Z) = firstn (length xs - S k) xs.
Proof.
  unfold slice_to.
  destruct (- Z.of_nat (S k) <? 0)%Z eqn:E; [|apply Z.ltb_ge in E; lia].
  f_equal. lia.
Qed.

Lemma scrape_reports_processed (base : str) (limit : option Z) (st : state world) :
  processed (snd (snd (scrape_reports base limit st))) =
  processed (snd st) ++ slice_to (fst (_list_pdf_links base st)) limit.
Proof.
  rewrite scrape_reports_unfold, scrape_loop_parse_each. simpl.
  rewrite parse_each_processed. now rewrite list_pdf_links_processed.
Qed.

(** A run of [scrape_reports]: the records of the URLs the limit keeps,
    each constructed and parsed in turn, then filtered; the state is the
    one the last of these parses leaves. *)
Lemma scrape_reports_run (base : str) (limit : option Z) (st : state world) :
  scrape_reports base limit st =
  (filter (fun r => is_some (ochmo_id r))
          (fst (parse_each (slice_to (fst (_list_pdf_links base st)) limit)
                           (snd (_list_pdf_links base st)))),
   snd (parse_each (slice_to (fst (_list_pdf_links base st)) limit)
                   (snd (_list_pdf_links base st)))).
Proof.
  rewrite scrape_reports_unfold, scrape_loop_parse_each. simpl. f_equal.
  apply filter_ext_in. intros r Hr.
  pose proof (parse_each_truthy (slice_to (fst (_list_pdf_links base st)) limit)
                                (snd (_list_pdf_links base st))) as Hall.
  rewrite Forall_forall in Hall. exact (Hall r Hr).
Qed.

(** Each record of [parse_each] is what [parse] makes of a new record of
    its URL. *)
Lemma parse_each_parses (urls : list str) (st : state world) :
  Forall2 (fun u r => exists st_u, r = fst (parse (new_report u) st_u))
          urls (fst (parse_each urls st)).
Proof.
  revert st. induction urls as [|u urls IH]; intros st; [constructor|].
  simpl. unfold bind, print, ret. simpl.
  destruct (parse (new_report u) _) as [r st1] eqn:E.
  specialize (IH st1). destruct (parse_each urls st1) as [rs st2]. simpl in *.
  constructor; [|exact IH].
  eexists. change r with (fst (r, st1)). rewrite <- E. reflexivity.
Qed.

Lemma parse_each_length (urls : list str) (st : state world) :
  length (fst (parse_each urls st)) = length urls.
Proof. rewrite <- (parse_each_urls urls st) at 2. now rewrite length_map. Qed.

(** C8. With a limit [k >= 0], [scrape_reports] passes the first [k]
    discovered URLs into [parse], in discovery order: for each of them it
    prints [Processing], constructs a record and parses it, the parses
    following one another on the network, and it returns those of these
    records that have an identifier.  The records parsed are [min k n] for
    [n] discovered URLs.  Without a limit the same holds of all the
    discovered URLs. *)
Theorem scrape_reports_limit_law (base : str) (k : nat) (st : state world) :
  let links := fst (_list_pdf_links base st) in
  let st1 := snd (_list_pdf_links base st) in
  let run := scrape_reports base (Some (Z.of_nat k)) st in
  let run_all := scrape_reports base None st in
  let parsed := parse_each (firstn k links) st1 in
  let parsed_all := parse_each links st1 in
  (run = (filter (fun r => is_some (ochmo_id r)) (fst parsed), snd parsed) /\
   Forall2 (fun u r => exists st_u, r = fst (parse (new_report u) st_u))
           (firstn k links) (fst parsed) /\
   length (fst parsed) = Nat.min k (length links)) /\
  (run_all = (filter (fun r => is_some (ochmo_id r)) (fst parsed_all), snd parsed_all) /\
   Forall2 (fun u r => exists st_u, r = fst (parse (new_report u) st_u))
           links (fst parsed_all) /\
   length (fst parsed_all) = length links) /\
  processed (snd (snd run)) = processed (snd st) ++ firstn k links /\
  length (firstn k links) = Nat.min k (length links) /\
  processed (snd (snd run_all)) = processed (snd st) ++ links.
Proof.
  intros links st1 run run_all parsed parsed_all.
  subst run run_all parsed parsed_all.
  rewrite !scrape_reports_processed, !scrape_reports_run. fold links st1.
  rewrite slice_to_nonneg. cbn [slice_to].
  repeat split.
  - apply parse_each_parses.
  - rewrite parse_each_length. apply length_firstn.
  - apply parse_each_parses.
  - apply parse_each_length.
  - apply length_firstn.
Qed.

(** C10. A negative limit [-k] is neither refused nor read as zero: of
    the [n] discovered URLs [scrape_reports] passes the first [n - k] into
    [parse], all but the last [k], and none when [k >= n]: it prints
    [Processing] for each, constructs a record and parses it, and returns
    those of these records that have an identifier.  With [-1] it does so
    for all but the last one. *)
Theorem scrape_reports_negative_limit (base : str) (k : nat) (st : state world) :
  let links := fst (_list_pdf_links base st) in
  let st1 := snd (_list_pdf_links base st) in
  let n := length links in
  let run := scrape_reports base (Some (- Z.of_nat (S k))%Z) st in
  let run_1 := scrape_reports base (Some (-1)%Z) st in
  let parsed := parse_each (firstn (n - S k) links) st1 in
  let parsed_1 := parse_each (removelast links) st1 in
  (run = (filter (fun r => is_some (ochmo_id r)) (fst parsed), snd parsed) /\
   Forall2 (fun u r => exists st_u, r = fst (parse (new_report u) st_u))
           (firstn (n - S k) links) (fst parsed) /\
   length (fst parsed) = n - S k) /\
  (run_1 = (filter (fun r => is_some (ochmo_id r)) (fst parsed_1), snd parsed_1) /\
   Forall2 (fun u r => exists st_u, r = fst (parse (new_report u) st_u))
           (removelast links) (fst parsed_1) /\
   length (fst parsed_1) = n - 1) /\
  (n <= S k -> run = ([], st1)) /\
  processed (snd (snd run)) = processed (snd st) ++ firstn (n - S k) links /\
  (S k <= n -> length (firstn (n - S k) links) = n - S k) /\
  (n <= S k -> firstn (n - S k) links = []) /\
  processed (snd (snd run_1)) = processed (snd st) ++ removelast links.
Proof.
  intros links st1 n run run_1 parsed parsed_1.
  subst run run_1 parsed parsed_1.
  assert (Hlast : firstn (n - 1) links = removelast links).
  { rewrite removelast_firstn_len. f_equal. subst n. lia. }
  rewrite !scrape_reports_processed, !scrape_reports_run. fold links st1.
  change (-1)%Z with (- Z.of_nat 1)%Z.
  rewrite !slice_to_negative. fold n. rewrite Hlast.
  repeat split.
  - apply parse_each_parses.
  - rewrite parse_each_length, length_firstn. fold n. lia.
  - apply parse_each_parses.
  - rewrite parse_each_length, <- Hlast, length_firstn. fold n. lia.
  - intros H. replace (n - S k) with 0 by lia. reflexivity.
  - intros H. rewrite length_firstn. fold n. lia.
  - intros H. replace (n - S k) with 0 by lia. reflexivity.
Qed.

Lemma parse_content_unavailable (u : str) (st : state world) :
  content_unavailable u (fst st) ->
  same_references (new_report u) (fst (parse (new_report u) st)).
Proof.
  unfold content_unavailable, Scraper.content_unavailable.
  unfold parse, Scraper.parse, _fetch_pdf_content, bind, get, print, ret.
  set (r2 := _parse_title (_parse_ochmo_id (new_report u))).
  destruct (head_ops_rest (new_report u)) as (Hb & Href). fold r2 in Hb, Href.
  assert (Hu : url r2 = u).
  { destruct (parse_title_id (_parse_ochmo_id (new_report u))) as [Hu _].
    unfold r2. rewrite Hu. unfold _parse_ochmo_id.
    destruct (search id_re (url (new_report u))); reflexivity. }
  simpl in Hb. rewrite Hb, Hu.
  destruct (http_get u (fst st)) as [[[|b bs]|] w]; simpl; intros H.
  - exact Href.
  - destruct H as [H|H]; rewrite H; simpl; exact Href.
  - exact Href.
Qed.

(** C4. When the content of a document of the truncated discovery list
    cannot be had (the request fails, the response is empty, or the
    first page cannot be read), [parse] still returns a record: it holds
    the identifier and the title of the URL, its two lists of references
    are empty, and when its identifier is not [None] it is in the list
    [scrape_reports] returns. *)
Theorem record_survives_content_failure
  (base : str) (limit : option Z) (st0 : state world)
  (us1 : list str) (u : str) (us2 : list str) :
  let st := snd (_list_pdf_links base st0) in
  let st1 := snd (scrape_loop us1 [] st) in
  let r := fst (parse (new_report u) (fst st1, snd st1 ++ [Processing u])) in
  slice_to (fst (_list_pdf_links base st0)) limit = us1 ++ u :: us2 ->
  content_unavailable u (fst st1) ->
  ochmo_id r = ochmo_id (_parse_ochmo_id (new_report u)) /\
  title r = title (_parse_title (_parse_ochmo_id (new_report u))) /\
  technical_requirements_docs r = [] /\
  technical_requirements r = [] /\
  (ochmo_id r <> None -> In r (fst (scrape_reports base limit st0))).
Proof.
  intros st st1 r Hurls Hfail.
  destruct (parse_head world http_get first_page (new_report u)
                       (fst st1, snd st1 ++ [Processing u])) as (_ & Hid & Ht).
  fold r in Hid, Ht.
  destruct (parse_title_id (_parse_ochmo_id (new_report u))) as [_ Hid'].
  destruct (parse_content_unavailable u (fst st1, snd st1 ++ [Processing u]) Hfail)
    as [Hd Hq].
  fold r in Hd, Hq.
  repeat split.
  - now rewrite Hid, Hid'.
  - exact Ht.
  - exact Hd.
  - exact Hq.
  - intros Hsome. rewrite scrape_reports_unfold, Hurls. fold st.
    rewrite scrape_loop_app. fold st1.
    destruct (scrape_loop us1 [] st) as [acc1 st1'] eqn:E1.
    simpl. unfold bind, print, ret. simpl.
    subst st1. simpl in r.
    destruct (parse (new_report u) (fst st1', snd st1' ++ [Processing u]))
      as [r' st2] eqn:E2.
    subst r. simpl in Hsome |- *. rewrite E2.
    rewrite scrape_loop_parse_each. simpl.
    apply in_or_app. left.
    assert (Htruthy : truthy (ochmo_id r') = is_some (ochmo_id r')).
    { change r' with (fst (r', st2)). rewrite <- E2. apply parse_truthy. }
    rewrite Htruthy. destruct (ochmo_id r'); [|congruence].
    simpl. apply in_or_app. right. now left.
Qed.

End Collection.

(* ===================================================================== *)
(** ** The references of the first page                                   *)
(* ===================================================================== *)

Section References.

Lemma fold_left_append {A B} (f : A -> B) (ms : list A) (init : list B) :
  fold_left (fun acc m => acc ++ [f m]) ms init = init ++ map f ms.
Proof.
  revert init. induction ms as [|m ms IH]; intros init; simpl.
  - now rewrite app_nil_r.
  - rewrite IH. now rewrite <- app_assoc.
Qed.

(** What [_parse_technical_requirements] appends. *)
Lemma parse_technical_requirements_appends (text : str) (r : PdfReport) :
  technical_requirements_docs (_parse_technical_requirements text r) =
  technical_requirements_docs r ++
  map (fun m => replace (txt " -") (txt "-") (group_1 m)) (finditer trd_re text)
  /\
  technical_requirements (_parse_technical_requirements text r) =
  technical_requirements r ++ map group_1 (finditer tr_re text).
Proof.
  unfold _parse_technical_requirements. simpl. split; apply fold_left_append.
Qed.

Lemma finditer_group (r : regex) (s : str) :
  (forall w, lang (Group r) w -> w <> []) ->
  map group_1 (finditer (Group r) s) = map group0 (finditer (Group r) s).
Proof.
  intros Hne.
  remember (length s) as n eqn:Hn. revert s Hn.
  induction n as [n IH] using lt_wf_ind. intros s Hn.
  rewrite (finditer_unfold_nonempty (Group r) s Hne).
  destruct (search (Group r) s) as [m|] eqn:E; [|reflexivity].
  simpl. unfold group_1 at 1. rewrite (search_group _ _ _ E). f_equal.
  apply (IH (length (m_post m))); [|reflexivity].
  subst n. apply (search_shorter _ _ _ E).
  destruct (search_some _ _ _ E) as (_ & L & _). exact (Hne _ L).
Qed.

Lemma finditer_none (r : regex) (s : str) :
  ~ occurs (lang r) s -> finditer r s = [].
Proof.
  intros H. rewrite finditer_unfold.
  destruct (search r s) as [m|] eqn:E; [|reflexivity].
  exfalso. apply H. destruct (search_some _ _ _ E) as (Hs & L & _).
  exists (m_pre m), (group0 m), (m_post m). auto.
Qed.

Lemma trd_re_first (w : str) :
  lang trd_re w -> exists c w', w = c :: w' /\ lower_char c = "n"%char.
Proof.
  intros (a & x & -> & Ha & _).
  destruct a as [|c a]; [discriminate|]. simpl in Ha. injection Ha as Hc _.
  exists c, (a ++ x). auto.
Qed.

Lemma tr_re_first (w : str) :
  lang tr_re w -> exists c w', w = c :: w' /\ lower_char c = "["%char.
Proof.
  intros (a & x & -> & Ha & _).
  destruct a as [|c a]; [discriminate|]. simpl in Ha. injection Ha as Hc _.
  exists c, (a ++ x). auto.
Qed.

Lemma space_not_n (c : ascii) :
  is_space c = true -> lower_char c <> "n"%char /\ lower_char c <> "["%char.
Proof.
  destruct c as [[] [] [] [] [] [] [] []]; vm_compute; intros H;
    first [discriminate H | split; discriminate].
Qed.

Lemma whitespace_no_reference (text : str) :
  forallb is_space text = true ->
  ~ occurs (lang trd_re) text /\ ~ occurs (lang tr_re) text.
Proof.
  intros Hsp.
  assert (Hin : forall pre c w post, text = pre ++ (c :: w) ++ post -> is_space c = true).
  { intros pre c w post ->. rewrite forallb_app in Hsp.
    apply andb_true_iff in Hsp. destruct Hsp as [_ Hsp]. simpl in Hsp.
    apply andb_true_iff in Hsp. tauto. }
  split; intros (pre & w & post & Heq & L).
  - destruct (trd_re_first _ L) as (c & w' & -> & Hc).
    apply (proj1 (space_not_n c (Hin _ _ _ _ Heq))), Hc.
  - destruct (tr_re_first _ L) as (c & w' & -> & Hc).
    apply (proj2 (space_not_n c (Hin _ _ _ _ Heq))), Hc.
Qed.

Lemma trd_nonempty (w : str) : lang trd_re w -> w <> [].
Proof. intros L. destruct (trd_re_first _ L) as (c & w' & -> & _). discriminate. Qed.

Lemma tr_nonempty (w : str) : lang tr_re w -> w <> [].
Proof. intros L. destruct (tr_re_first _ L) as (c & w' & -> & _). discriminate. Qed.

End References.

(* ===================================================================== *)
(** ** Patterns with one way to match                                     *)
(* ===================================================================== *)

Section OneWayFacts.

Lemma all_ascii_in (c : ascii) : In c all_ascii.
Proof.
  unfold all_ascii. rewrite <- (ascii_nat_embedding c).
  apply in_map. apply in_seq. pose proof (nat_ascii_bounded c). lia.
Qed.

Lemma disjoint_sound (p q : ascii -> bool) (c : ascii) :
  disjoint p q = true -> p c = true -> q c = true -> False.
Proof.
  unfold disjoint. intros H Hp Hq. rewrite forallb_forall in H.
  specialize (H c (all_ascii_in c)). rewrite Hp, Hq in H. discriminate.
Qed.

Lemma flat_map_flat_map {A B C} (f : A -> list B) (k : B -> list C) (l : list A) :
  flat_map k (flat_map f l) = flat_map (fun x => flat_map k (f x)) l.
Proof.
  induction l as [|a l IH]; simpl; [reflexivity|].
  now rewrite flat_map_app, IH.
Qed.

Lemma flat_map_map {A B C} (h : A -> B) (k : B -> list C) (l : list A) :
  flat_map k (map h l) = flat_map (fun x => k (h x)) l.
Proof.
  induction l as [|a l IH]; simpl; [reflexivity|]. now rewrite IH.
Qed.

Lemma flat_map_nil {A B} (k : A -> list B) (l : list A) :
  (forall x, In x l -> k x = []) -> flat_map k l = [].
Proof.
  induction l as [|a l IH]; simpl; intros H; [reflexivity|].
  rewrite (H a) by now left. simpl. apply IH. intros x Hx. apply H. now right.
Qed.

Lemma exec_nil (r : regex) :
  nullable r = false -> forall g, exec r [] g = [].
Proof.
  induction r as [l|p|r1 IH1 r2 IH2|r1 IH1|p|p|p|r1 IH1]; simpl; intros Hn g;
    try discriminate; try reflexivity.
  - destruct l; [discriminate|reflexivity].
  - apply andb_false_iff in Hn. destruct Hn as [Hn|Hn].
    + now rewrite IH1.
    + apply flat_map_nil. intros [g1 s1] Hin. simpl.
      destruct (exec_sound _ _ _ _ _ Hin) as (w & Hw & _).
      symmetry in Hw. apply app_eq_nil in Hw. destruct Hw as [_ ->]. now apply IH2.
  - now rewrite IH1.
Qed.

(** All the ways of [p*] but the one tried first leave a text that goes
    on with a character of [p]. *)
Lemma greedy_others (p : ascii -> bool) (s : str) :
  exists h t, greedy p s = h :: t /\
              forall x, In x t -> exists c x', x = c :: x' /\ p c = true.
Proof.
  induction s as [|c s IH]; simpl.
  - exists [], []. split; [reflexivity|]. intros x [].
  - destruct (p c) eqn:E.
    + destruct IH as (h & t & -> & Ht). exists h, (t ++ [c :: s]).
      split; [reflexivity|]. intros x Hx. apply in_app_or in Hx.
      destruct Hx as [Hx|[<-|[]]]; [now apply Ht|]. exists c, s. auto.
    + exists (c :: s), []. split; [reflexivity|]. intros x [].
Qed.

(** All the ways of [p*?] but the one tried last leave a text that goes
    on with a character of [p]. *)
Lemma reluctant_others (p : ascii -> bool) (s : str) :
  exists t z, reluctant p s = t ++ [z] /\
              forall x, In x t -> exists c x', x = c :: x' /\ p c = true.
Proof.
  induction s as [|c s IH]; simpl.
  - exists [], []. split; [reflexivity|]. intros x [].
  - destruct (p c) eqn:E.
    + destruct IH as (t & z & -> & Ht). exists ((c :: s) :: t), z.
      split; [reflexivity|]. intros x [<-|Hx]; [|now apply Ht]. exists c, s. auto.
    + exists [], (c :: s). split; [reflexivity|]. intros x [].
Qed.

Section Continuation.

Variable X : Type.

Lemma runs_one_way (p fo : ascii -> bool) (K : option str * str -> list X)
      (g : option str) (l : list str) (z : str) (t t' : list str) :
  disjoint p fo = true -> follows fo K ->
  l = t ++ z :: t' ->
  (forall x, In x (t ++ t') -> exists c x', x = c :: x' /\ p c = true) ->
  flat_map K (map (pair g) l) = K (g, z).
Proof.
  intros Hd [HK1 HK2] -> Hall.
  assert (Hnil : forall u, (forall x, In x u -> In x (t ++ t')) ->
                           flat_map K (map (pair g) u) = []).
  { intros u Hu. apply flat_map_nil. intros x Hx.
    apply in_map_iff in Hx. destruct Hx as (y & <- & Hy).
    destruct (Hall y (Hu y Hy)) as (c & x' & -> & Hp).
    assert (Hx : K (g, c :: x') = [] \/ K (g, c :: x') <> []).
    { destruct (K (g, c :: x')); [now left|right; discriminate]. }
    destruct Hx as [Hx|Hx]; [exact Hx|].
    exfalso. exact (disjoint_sound p fo c Hd Hp (HK2 g c x' Hx)). }
  rewrite map_app, flat_map_app. simpl.
  rewrite (Hnil t), (Hnil t'), app_nil_r; [reflexivity| |];
    intros x Hx; apply in_or_app; auto.
Qed.

Lemma one_way_sound (r : regex) :
  forall fo (K : option str * str -> list X), one_way r fo = true -> follows fo K ->
               follows (first_chars r fo) (fun x => flat_map K (exec r (snd x) (fst x))) /\
               (nullable r = false -> forall g, flat_map K (exec r [] g) = []).
Proof.
  induction r as [l|p|r1 IH1 r2 IH2|r1 IH1|p|p|p|r1 IH1]; intros fo K Hone HK;
    pose proof HK as [HK1 HK2]; simpl in *.
  - (* Lit *)
    split; [split|].
    + intros [g s]. simpl. destruct (strip_lit l s); simpl; [|lia].
      rewrite app_nil_r. apply HK1.
    + intros g c s' H. destruct l as [|a l].
      * cbn in H. rewrite app_nil_r in H. eapply HK2; eauto.
      * cbn in H. destruct (ci_eqb a c); [reflexivity|]. now contradiction H.
    + intros Hn g. destruct l; [discriminate|reflexivity].
  - (* Sym *)
    split; [split|].
    + intros [g [|c s]]; simpl; [lia|]. destruct (p c); simpl; [|lia].
      rewrite app_nil_r. apply HK1.
    + intros g c s' H. cbn in H. destruct (p c); [reflexivity|]. now contradiction H.
    + reflexivity.
  - (* Cat *)
    apply andb_true_iff in Hone. destruct Hone as [H1 H2].
    destruct (IH2 fo K H2 HK) as [HK' Hnil2].
    destruct (IH1 (first_chars r2 fo) _ H1 HK') as [[HA HB] Hnil1].
    split; [split|].
    + intros [g s]. simpl. rewrite flat_map_flat_map. apply (HA (g, s)).
    + intros g c s' H. cbn in H. rewrite flat_map_flat_map in H.
      apply (HB g c s' H).
    + intros Hn g. rewrite flat_map_flat_map.
      apply andb_false_iff in Hn. destruct Hn as [Hn|Hn].
      * now apply Hnil1.
      * apply flat_map_nil. intros [g1 s1] Hin. simpl.
        destruct (exec_sound _ _ _ _ _ Hin) as (w & Hw & _).
        symmetry in Hw. apply app_eq_nil in Hw. destruct Hw as [_ ->].
        now apply Hnil2.
  - (* Opt *)
    apply andb_true_iff in Hone. destruct Hone as [Hone H1].
    apply andb_true_iff in Hone. destruct Hone as [Hn Hd].
    apply negb_true_iff in Hn.
    destruct (IH1 fo K H1 HK) as [[HA HB] Hnil1].
    split; [split|].
    + intros [g s]. simpl. rewrite flat_map_app. simpl. rewrite app_nil_r.
      rewrite length_app. destruct s as [|c s'].
      * rewrite (Hnil1 Hn g). simpl. apply HK1.
      * specialize (HA (g, c :: s')). simpl in HA. specialize (HK1 (g, c :: s')).
        destruct (flat_map K (exec r1 (c :: s') g)) as [|y ys] eqn:E1; [simpl; lia|].
        destruct (K (g, c :: s')) as [|z zs] eqn:E2; [simpl in *; lia|].
        exfalso. apply (disjoint_sound _ _ c Hd).
        -- apply (HB g c s'). simpl. rewrite E1. discriminate.
        -- apply (HK2 g c s'). rewrite E2. discriminate.
    + intros g c s' H. cbn in H. rewrite flat_map_app in H. cbn in H.
      rewrite app_nil_r in H. apply orb_true_iff.
      destruct (flat_map K (exec r1 (c :: s') g)) as [|y ys] eqn:E1.
      * right. apply (HK2 g c s'). exact H.
      * left. apply (HB g c s'). simpl. rewrite E1. discriminate.
    + discriminate.
  - (* Plus *)
    split; [split|].
    + intros [g [|c s]]; simpl; [lia|]. destruct (p c); simpl; [|lia].
      destruct (greedy_others p s) as (h & t & Hg & Ht).
      rewrite (runs_one_way p fo K g _ h [] t Hone HK Hg Ht). apply HK1.
    + intros g c s' H. cbn in H. destruct (p c); [reflexivity|]. now contradiction H.
    + reflexivity.
  - (* Star *)
    split; [split|].
    + intros [g s]. simpl.
      destruct (greedy_others p s) as (h & t & Hg & Ht).
      rewrite (runs_one_way p fo K g _ h [] t Hone HK Hg Ht). apply HK1.
    + intros g c s' H. cbn in H. destruct (p c) eqn:E; [reflexivity|].
      cbn in H. rewrite app_nil_r in H. simpl. apply (HK2 g c s' H).
    + discriminate.
  - (* StarLazy *)
    split; [split|].
    + intros [g s]. simpl.
      destruct (reluctant_others p s) as (t & z & Hg & Ht).
      assert (Ht' : forall x, In x (t ++ []) -> exists c x', x = c :: x' /\ p c = true).
      { intros x Hx. rewrite app_nil_r in Hx. now apply Ht. }
      rewrite (runs_one_way p fo K g _ z t [] Hone HK Hg Ht'). apply HK1.
    + intros g c s' H. cbn in H. destruct (p c) eqn:E; [reflexivity|].
      cbn in H. rewrite app_nil_r in H. simpl. apply (HK2 g c s' H).
    + discriminate.
  - (* Group *)
    destruct (IH1 fo (fun x => K x) Hone HK) as [_ Hnil1].
    split; [split|].
    + intros [g s]. simpl. rewrite flat_map_map.
      set (K' := fun x : option str * str => K (Some (consumed s (snd x)), snd x)).
      assert (HK' : follows fo K').
      { split; [intros x; apply HK1|]. intros g' c s' H. apply (HK2 _ c s' H). }
      destruct (IH1 fo K' Hone HK') as [[HA _] _]. apply (HA (g, s)).
    + intros g c s' H. cbn in H. rewrite flat_map_map in H.
      set (K' := fun x : option str * str =>
                   K (Some (consumed (c :: s') (snd x)), snd x)) in H.
      assert (HK' : follows fo K').
      { split; [intros x; apply HK1|]. intros g' c' s'' H'. apply (HK2 _ c' s'' H'). }
      destruct (IH1 fo K' Hone HK') as [[_ HB] _]. apply (HB g c s' H).
    + intros Hn g. rewrite flat_map_map.
      set (K' := fun x : option str * str => K (Some (consumed [] (snd x)), snd x)).
      assert (HK' : follows fo K').
      { split; [intros x; apply HK1|]. intros g' c' s'' H'. apply (HK2 _ c' s'' H'). }
      destruct (IH1 fo K' Hone HK') as [_ Hnil]. now apply Hnil.
Qed.

End Continuation.

(** A pattern that passes the test has at most one way to match at the
    head of a text. *)
Lemma one_way_exec (r : regex) (s : str) (g : option str) :
  one_way r any_char = true -> length (exec r s g) <= 1.
Proof.
  intros H.
  assert (HK : follows any_char (fun x : option str * str => [x])).
  { split; [intros x; simpl; lia|reflexivity]. }
  destruct (one_way_sound _ r any_char _ H HK) as [[HA _] _].
  specialize (HA (g, s)). simpl in HA.
  replace (flat_map (fun x => [x]) (exec r s g)) with (exec r s g) in HA; [exact HA|].
  clear. induction (exec r s g) as [|x l IH]; simpl; [reflexivity|]. now rewrite <- IH.
Qed.

Lemma one_way_prefix_free (r : regex) :
  one_way r any_char = true -> prefix_free (lang r).
Proof.
  intros H w1 x1 w2 x2 L1 L2 Heq.
  destruct (exec_complete r w1 x1 None L1) as (g1 & H1).
  destruct (exec_complete r w2 x2 None L2) as (g2 & H2).
  rewrite <- Heq in H2.
  pose proof (one_way_exec r (w1 ++ x1) None H) as Hlen.
  destruct (exec r (w1 ++ x1) None) as [|y [|y' l]]; simpl in *; [contradiction| |lia].
  destruct H1 as [H1|[]]. destruct H2 as [H2|[]].
  rewrite H1 in H2. inversion H2; subst.
  apply app_inv_tail in Heq. exact Heq.
Qed.

Lemma app_same_length {A} (a a' b b' : list A) :
  length a = length a' -> a ++ b = a' ++ b' -> a = a' /\ b = b'.
Proof.
  revert a'. induction a as [|x a IH]; intros [|x' a'] Hlen Heq;
    try discriminate; simpl in *.
  - auto.
  - injection Heq as -> Heq. injection Hlen as Hlen.
    destruct (IH a' Hlen Heq) as [-> ->]. auto.
Qed.

Lemma scan_hit_inv (L : str -> Prop) (s : str) (w : str) (ws : list str) :
  scan L s (w :: ws) ->
  exists pre post, s = pre ++ w ++ post /\ leftmost L pre w post /\ scan L post ws.
Proof.
  intros H. inversion H; subst. exists pre, post. auto.
Qed.

(** The words a scan meets are determined by the text when no two words
    of the language start at the same place. *)
Lemma scan_unique (L : str -> Prop) :
  prefix_free L ->
  forall ws s ws', scan L s ws -> scan L s ws' -> ws = ws'.
Proof.
  intros Hpf. induction ws as [|w ws IH]; intros s ws' H1 H2.
  - inversion H1; subst. destruct ws' as [|w' ws']; [reflexivity|].
    apply scan_hit_inv in H2. destruct H2 as (pre & post & -> & [Lw _] & _).
    exfalso. apply H. exists pre, w', post. auto.
  - apply scan_hit_inv in H1. destruct H1 as (pre & post & -> & [Lw Hleft] & Hrest).
    destruct ws' as [|w' ws'].
    + inversion H2; subst. exfalso. apply H. exists pre, w, post. auto.
    + apply scan_hit_inv in H2.
      destruct H2 as (pre' & post' & Heq & [Lw' Hleft'] & Hrest').
      assert (Hlen : length pre = length pre').
      { apply Nat.le_antisymm.
        - apply (Hleft pre' w' post' Heq Lw').
        - apply (Hleft' pre w post (eq_sym Heq) Lw). }
      destruct (app_same_length _ _ _ _ Hlen Heq) as [<- Heq'].
      pose proof (Hpf _ _ _ _ Lw Lw' Heq') as ->.
      apply app_inv_head in Heq'. subst post'.
      f_equal. exact (IH _ _ Hrest Hrest').
Qed.

End OneWayFacts.

(* ===================================================================== *)
(** ** The standards and the requirements                                 *)
(* ===================================================================== *)

Section Citations.

Lemma trd_re_citation (w : str) : lang trd_re w <-> trd_citation w.
Proof.
  unfold trd_citation, trd_re, ci, maybe, one, several. split.
  - intros (a1 & x1 & -> & H1 & a2 & x2 & -> & H2 & a3 & x3 & -> & H3 &
            a4 & x4 & -> & H4 & a5 & x5 & -> & H5 & a6 & x6 & -> & H6 &
            a7 & x7 & -> & H7 & a8 & x8 & -> & H8 & a9 & x9 & -> & H9 &
            a10 & x10 & -> & H10 & a11 & x11 & -> & H11 & a12 & x12 & -> & H12 &
            a13 & x13 & -> & H13 & a14 & x14 & -> & H14 & a15 & x15 & -> & H15 &
            a16 & x16 & -> & H16 & a17 & a18 & -> & H17 & H18).
    cbn [in_sequence]. chain.
    exists a18, []. split; [symmetry; apply app_nil_r|]. split; [exact H18|reflexivity].
  - cbn [in_sequence].
    intros (a1 & x1 & -> & H1 & a2 & x2 & -> & H2 & a3 & x3 & -> & H3 &
            a4 & x4 & -> & H4 & a5 & x5 & -> & H5 & a6 & x6 & -> & H6 &
            a7 & x7 & -> & H7 & a8 & x8 & -> & H8 & a9 & x9 & -> & H9 &
            a10 & x10 & -> & H10 & a11 & x11 & -> & H11 & a12 & x12 & -> & H12 &
            a13 & x13 & -> & H13 & a14 & x14 & -> & H14 & a15 & x15 & -> & H15 &
            a16 & x16 & -> & H16 & a17 & x17 & -> & H17 & a18 & x18 & -> & H18 & ->).
    rewrite app_nil_r. cbn [lang].
    repeat match goal with
           | |- exists _ _, _ = _ ++ _ /\ _ =>
               do 2 eexists; split; [reflexivity|split; [eassumption|]]
           end.
    exact H18.
Qed.

Lemma scan_ext (L L' : str -> Prop) (s : str) (ws : list str) :
  (forall w, L w <-> L' w) -> scan L s ws -> scan L' s ws.
Proof.
  intros HL H. induction H as [s Hno|pre w post ws Hleft Hne _ IH].
  - apply scan_done. intros Hocc. apply Hno.
    apply (occurs_ext L'); [|exact Hocc]. intros w. apply HL.
  - apply scan_hit; [|exact Hne|exact IH]. now apply (leftmost_ext L).
Qed.

Lemma trd_re_one_way : one_way trd_re any_char = true.
Proof. vm_compute. reflexivity. Qed.

Lemma tr_re_one_way : one_way tr_re any_char = true.
Proof. vm_compute. reflexivity. Qed.

(** The words of a pattern with one way to match, met by a scan: there
    is one list of them, and [re.finditer] returns it. *)
Lemma finditer_the_scan (r : regex) (s : str) :
  one_way r any_char = true -> (forall w, lang r w -> w <> []) ->
  scan (lang r) s (map group0 (finditer r s)) /\
  forall ws, scan (lang r) s ws -> ws = map group0 (finditer r s).
Proof.
  intros Hone Hne. split; [now apply finditer_scan|].
  intros ws Hws. apply (scan_unique (lang r) (one_way_prefix_free r Hone) ws s); auto.
  now apply finditer_scan.
Qed.

Lemma ci_hyphen (a : str) : ci "-" a -> a = txt "-".
Proof.
  unfold ci. destruct a as [|c [|d a]]; try discriminate.
  intros H. injection H as H. f_equal.
  revert H. destruct c as [[] [] [] [] [] [] [] []]; vm_compute; intros H;
    first [reflexivity | discriminate H].
Qed.

Lemma trd_citation_hyphens (w : str) :
  trd_citation w -> exists x y z, w = x ++ txt "-" ++ y ++ txt "-" ++ z.
Proof.
  unfold trd_citation. cbn [in_sequence].
  intros (a1 & x1 & -> & H1 & a2 & x2 & -> & H2 & a3 & x3 & -> & H3 &
          a4 & x4 & -> & H4 & a5 & x5 & -> & H5 & a6 & x6 & -> & H6 &
          a7 & x7 & -> & H7 & _).
  exists (a1 ++ a2), (a4 ++ a5 ++ a6), x7.
  rewrite (ci_hyphen a3 H3), (ci_hyphen a7 H7). now rewrite <- !app_assoc.
Qed.

(** C2, as amended.  The standards scan meets, from left to right and
    without overlap, the citations in which both hyphens are present
    (each with at most one whitespace character on either side), and
    appends each, with every [" -"] replaced by ["-"], in order of
    appearance, duplicates kept.  Every such citation holds two
    hyphens. *)
Theorem standards_scan (text : str) (r : PdfReport) :
  (exists ws,
      scan trd_citation text ws /\
      (forall ws', scan trd_citation text ws' -> ws' = ws) /\
      technical_requirements_docs (_parse_technical_requirements text r) =
      technical_requirements_docs r ++ map (replace (txt " -") (txt "-")) ws) /\
  (forall w, trd_citation w -> exists x y z, w = x ++ txt "-" ++ y ++ txt "-" ++ z).
Proof.
  split; [|exact trd_citation_hyphens].
  destruct (finditer_the_scan trd_re text trd_re_one_way trd_nonempty) as [Hscan Huniq].
  exists (map group0 (finditer trd_re text)). split; [|split].
  - apply (scan_ext (lang trd_re)); [apply trd_re_citation|exact Hscan].
  - intros ws' Hws'. apply Huniq.
    apply (scan_ext trd_citation); [|exact Hws'].
    intros w. symmetry. apply trd_re_citation.
  - destruct (parse_technical_requirements_appends text r) as [-> _].
    f_equal. rewrite <- map_map with (f := group_1).
    unfold trd_re at 1. rewrite finditer_group; [reflexivity|apply trd_nonempty].
Qed.

(** C2 as it is worded fails.  The citation of the specification's own
    scenario, written with spaces in place of the hyphens, has the shape
    the specification words, and the scan does not match it. *)
Lemma standards_scan_needs_hyphens :
  claimed_trd_citation (txt "NASA STD 3001 Volume 2, Rev A") /\
  technical_requirements_docs
    (_parse_technical_requirements (txt "NASA STD 3001 Volume 2, Rev A") (new_report []))
  = [].
Proof.
  split; [|vm_compute; reflexivity].
  unfold claimed_trd_citation, ci, maybe, one, several. cbn [in_sequence].
  exists (txt "NASA"), (txt " STD 3001 Volume 2, Rev A"). do 2 (split; [reflexivity|]).
  exists (txt " "), (txt "STD 3001 Volume 2, Rev A").
  split; [reflexivity|]. split; [right; exists " "%char; split; reflexivity|].
  exists [], (txt "STD 3001 Volume 2, Rev A"). split; [reflexivity|]. split; [now left|].
  exists [], (txt "STD 3001 Volume 2, Rev A"). split; [reflexivity|]. split; [now left|].
  exists (txt "STD"), (txt " 3001 Volume 2, Rev A"). do 2 (split; [reflexivity|]).
  exists (txt " "), (txt "3001 Volume 2, Rev A").
  split; [reflexivity|]. split; [right; exists " "%char; split; reflexivity|].
  exists [], (txt "3001 Volume 2, Rev A"). split; [reflexivity|]. split; [now left|].
  exists [], (txt "3001 Volume 2, Rev A"). split; [reflexivity|]. split; [now left|].
  exists (txt "3001"), (txt " Volume 2, Rev A").
  split; [reflexivity|]. split; [split; [discriminate|reflexivity]|].
  exists (txt " "), (txt "Volume 2, Rev A").
  split; [reflexivity|]. split; [exists " "%char; split; reflexivity|].
  exists (txt "Volume"), (txt " 2, Rev A"). do 2 (split; [reflexivity|]).
  exists (txt " "), (txt "2, Rev A").
  split; [reflexivity|]. split; [exists " "%char; split; reflexivity|].
  exists (txt "2"), (txt ", Rev A").
  split; [reflexivity|]. split; [exists "2"%char; split; reflexivity|].
  exists (txt ","), (txt " Rev A"). do 2 (split; [reflexivity|]).
  exists (txt " "), (txt "Rev A").
  split; [reflexivity|]. split; [right; exists " "%char; split; reflexivity|].
  exists (txt "Rev"), (txt " A"). do 2 (split; [reflexivity|]).
  exists (txt " "), (txt "A").
  split; [reflexivity|]. split; [exists " "%char; split; reflexivity|].
  exists (txt "A"), []. split; [reflexivity|].
  split; [exists "A"%char; split; reflexivity|reflexivity].
Qed.

(** C7. On a new record, [_parse_technical_requirements] leaves two
    lists as long as the lists of the words a scan without overlap meets
    for the standards pattern and for the requirement pattern (there is
    one such list for each).  Where a pattern has no match the list is
    empty; on an empty text and on a text of whitespace both are. *)
Theorem references_count (text u : str) :
  let r := _parse_technical_requirements text (new_report u) in
  (exists ws,
      scan (lang trd_re) text ws /\
      (forall ws', scan (lang trd_re) text ws' -> ws' = ws) /\
      length (technical_requirements_docs r) = length ws) /\
  (exists ws,
      scan (lang tr_re) text ws /\
      (forall ws', scan (lang tr_re) text ws' -> ws' = ws) /\
      length (technical_requirements r) = length ws) /\
  (~ occurs (lang trd_re) text -> technical_requirements_docs r = []) /\
  (~ occurs (lang tr_re) text -> technical_requirements r = []) /\
  (forallb is_space text = true ->
   technical_requirements_docs r = [] /\ technical_requirements r = []).
Proof.
  intros r.
  assert (Hd : technical_requirements_docs r =
               map (fun m => replace (txt " -") (txt "-") (group_1 m))
                   (finditer trd_re text)).
  { exact (proj1 (parse_technical_requirements_appends text (new_report u))). }
  assert (Hq : technical_requirements r = map group_1 (finditer tr_re text)).
  { exact (proj2 (parse_technical_requirements_appends text (new_report u))). }
  assert (Hd0 : ~ occurs (lang trd_re) text -> technical_requirements_docs r = []).
  { intros H. rewrite Hd, (finditer_none _ _ H). reflexivity. }
  assert (Hq0 : ~ occurs (lang tr_re) text -> technical_requirements r = []).
  { intros H. rewrite Hq, (finditer_none _ _ H). reflexivity. }
  repeat split.
  - destruct (finditer_the_scan trd_re text trd_re_one_way trd_nonempty) as [Hs Hu].
    exists (map group0 (finditer trd_re text)). repeat split; auto.
    rewrite Hd. now rewrite !length_map.
  - destruct (finditer_the_scan tr_re text tr_re_one_way tr_nonempty) as [Hs Hu].
    exists (map group0 (finditer tr_re text)). repeat split; auto.
    rewrite Hq. now rewrite !length_map.
  - exact Hd0.
  - exact Hq0.
  - apply Hd0. now apply whitespace_no_reference.
  - apply Hq0. now apply whitespace_no_reference.
Qed.

End Citations.

(* ===================================================================== *)
(** ** Discovery against the identifier                                   *)
(* ===================================================================== *)

Section Discovery.

Variable world : Type.
Variable http_get : str -> world -> option bytes * world.
Variable html_hrefs : bytes -> list str.
Variable urljoin : str -> str -> str.
Variable first_page : bytes -> pdf_outcome.

Local Abbreviation parse := (parse world http_get first_page).
Local Abbreviation parse_each := (parse_each world http_get first_page).
Local Abbreviation scrape_loop := (scrape_loop world http_get first_page).
Local Abbreviation _list_pdf_links := (_list_pdf_links world http_get html_hrefs urljoin).
Local Abbreviation scrape_reports :=
  (scrape_reports world http_get html_hrefs urljoin first_page).




End Discovery.

(* ===================================================================== *)
(** ** Runs                                                               *)
(* ===================================================================== *)

Section Runs.

Local Abbreviation run_parse text :=
  (parse Demo.world (Demo.http_get true) (Demo.first_page text)).

(** The scenario of the specification: the identifier and the title of
    a URL. *)
Example scenario_identifier_and_title :
  let r := _parse_title (_parse_ochmo_id (new_report Demo.brief_url)) in
  ochmo_id r = Some (txt "OCHMO-MTB-123") /\ title r = Some (txt "Crew Health Risk").
Proof. vm_compute. split; reflexivity. Qed.

(** The scenario of the specification: the references of a page. *)
Example scenario_references :
  let r := _parse_technical_requirements Demo.brief_text (new_report []) in
  technical_requirements_docs r = [txt "NASA-STD-3001 Volume 2, Rev A"] /\
  technical_requirements r = [txt "V2 104"].
Proof. vm_compute. split; reflexivity. Qed.

(** C3 on the code.  [parse] called a second time on the record it
    filled leaves the identifier and the title as they were and appends
    the references of the page a second time. *)
Lemma reparse_appends_references_again :
  let once := run_parse Demo.brief_text (new_report Demo.brief_url) Demo.start in
  let twice := run_parse Demo.brief_text (fst once) (snd once) in
  ochmo_id (fst twice) = ochmo_id (fst once) /\
  title (fst twice) = title (fst once) /\
  technical_requirements_docs (fst once) = [txt "NASA-STD-3001 Volume 2, Rev A"] /\
  technical_requirements_docs (fst twice) =
    [txt "NASA-STD-3001 Volume 2, Rev A"; txt "NASA-STD-3001 Volume 2, Rev A"] /\
  technical_requirements (fst once) = [txt "V2 104"] /\
  technical_requirements (fst twice) = [txt "V2 104"; txt "V2 104"].
Proof. vm_compute. repeat split; reflexivity. Qed.


(** The invariant of C6 on a URL without an identifier. *)
Lemma title_null_when_identifier_null_witness :
  let r := _parse_title (_parse_ochmo_id (new_report (txt "https://x/index.html"))) in
  reachable Demo.world (Demo.http_get true) (Demo.first_page []) r /\
  ochmo_id r = None /\
  title r = None.
Proof.
  intros r.
  assert (Hr : reachable Demo.world (Demo.http_get true) (Demo.first_page []) r).
  { apply reach_parse_title, reach_parse_ochmo_id, reach_new. }
  assert (Hid : ochmo_id r = None) by (vm_compute; reflexivity).
  split; [exact Hr|]. split; [exact Hid|].
  exact (title_null_when_identifier_null
           Demo.world (Demo.http_get true) (Demo.first_page []) r Hr Hid).
Defined.

(** C4 on a listing of one document whose request fails. *)
Lemma record_survives_content_failure_witness :
  let get := Demo.http_get false in
  let hrefs := Demo.html_hrefs [Demo.brief_url] in
  let page := Demo.first_page Demo.brief_text in
  let st := snd (_list_pdf_links Demo.world get hrefs Urllib.urljoin
                                Demo.listing_url Demo.start) in
  let r := fst (parse Demo.world get page (new_report Demo.brief_url)
                      (fst st, snd st ++ [Processing Demo.brief_url])) in
  content_unavailable Demo.world get page Demo.brief_url (fst st) /\
  ochmo_id r = Some (txt "OCHMO-MTB-123") /\
  title r = Some (txt "Crew Health Risk") /\
  technical_requirements_docs r = [] /\
  technical_requirements r = [] /\
  In r (fst (scrape_reports Demo.world get hrefs Urllib.urljoin page
                            Demo.listing_url None Demo.start)).
Proof.
  intros get hrefs page st r.
  assert (Hurls : slice_to (fst (_list_pdf_links Demo.world get hrefs Urllib.urljoin
                                                Demo.listing_url Demo.start)) None
                  = [] ++ Demo.brief_url :: []) by (vm_compute; reflexivity).
  assert (Hfail : content_unavailable Demo.world get page Demo.brief_url (fst st))
    by (vm_compute; exact I).
  destruct (record_survives_content_failure
              Demo.world get hrefs Urllib.urljoin page
              Demo.listing_url None Demo.start [] Demo.brief_url [] Hurls Hfail)
    as (Hid & Ht & Hd & Hq & Hin).
  split; [exact Hfail|]. split; [exact Hid|]. split; [exact Ht|].
  split; [exact Hd|]. split; [exact Hq|].
  apply Hin. vm_compute. discriminate.
Defined.

(** Two new records of one URL: the same bytes give the same record. *)
Lemma parse_new_record_deterministic_witness :
  fst (Demo.http_get true Demo.brief_url tt) = fst (Demo.http_get true Demo.brief_url tt) /\
  fst (run_parse Demo.brief_text (new_report Demo.brief_url) Demo.start) =
  fst (run_parse Demo.brief_text (new_report Demo.brief_url)
                 (tt, [Processing Demo.brief_url])).
Proof.
  split; [reflexivity|].
  exact (parse_new_record_deterministic
           Demo.world Demo.world (Demo.http_get true) (Demo.http_get true)
           (Demo.first_page Demo.brief_text) Demo.brief_url
           Demo.start (tt, [Processing Demo.brief_url]) eq_refl).
Defined.

End Runs.

(* ===================================================================== *)
(** ** The form of the identifier                                         *)
(* ===================================================================== *)

Section IdentifierForm.

Lemma upper_lower_char (c : ascii) : upper_char (lower_char c) = upper_char c.
Proof. destruct c as [[] [] [] [] [] [] [] []]; vm_compute; reflexivity. Qed.

Lemma upper_of_lower (a b : str) : lower a = lower b -> upper a = upper b.
Proof.
  revert b. induction a as [|c a IH]; intros [|d b] H; try discriminate; [reflexivity|].
  simpl in H. injection H as Hc H. simpl.
  rewrite <- (upper_lower_char c), Hc, upper_lower_char. f_equal. now apply IH.
Qed.

Lemma upper_digit (c : ascii) : is_digit c = true -> upper_char c = c.
Proof.
  destruct c as [[] [] [] [] [] [] [] []]; vm_compute; intros H;
    first [reflexivity | discriminate H].
Qed.

Lemma upper_digits (d : str) : forallb is_digit d = true -> upper d = d.
Proof.
  induction d as [|c d IH]; simpl; intros H; [reflexivity|].
  apply andb_true_iff in H. destruct H as [Hc Hd].
  now rewrite (upper_digit c Hc), IH.
Qed.

Lemma upper_app (a b : str) : upper (a ++ b) = upper a ++ upper b.
Proof. apply map_app. Qed.

Lemma lower_length (a b : str) : lower a = lower b -> length a = length b.
Proof.
  intros H. apply (f_equal (@length ascii)) in H. unfold lower in H.
  now rewrite !length_map in H.
Qed.

(** The token in capitals is in normal form. *)
Lemma upper_token_canonical (w : str) : id_token w -> canonical_id (upper w).
Proof.
  intros (a & m & b & d & -> & Ha & Hm & Hb & Hne & Hd).
  exists (upper m), d. rewrite !upper_app.
  rewrite (upper_of_lower a (txt "ochmo-") Ha).
  rewrite (upper_of_lower b (txt "tb-") Hb).
  rewrite (upper_digits d Hd). repeat split; auto.
  destruct Hm as [->|Hm]; [now left|right].
  exact (upper_of_lower m (txt "m") Hm).
Qed.

Lemma canonical_token (w : str) : canonical_id w -> id_token w /\ upper w = w.
Proof.
  intros (m & d & -> & Hm & Hne & Hd). split.
  - exists (txt "OCHMO-"), m, (txt "TB-"), d. repeat split; auto.
    destruct Hm as [->| ->]; [now left|now right].
  - rewrite !upper_app, (upper_digits d Hd).
    destruct Hm as [->| ->]; reflexivity.
Qed.

Lemma app_suffix {A} (a b c d : list A) :
  a ++ b = c ++ d -> length c <= length a -> exists x, d = x ++ b.
Proof.
  revert c. induction a as [|x a IH]; intros c H Hlen.
  - destruct c; [|simpl in Hlen; lia]. simpl in H. subst. now exists [].
  - destruct c as [|y c].
    + simpl in H. subst. now exists (x :: a).
    + simpl in H. injection H as _ H. apply (IH c H). simpl in Hlen. lia.
Qed.

Lemma forallb_suffix (p : ascii -> bool) (x b : str) :
  forallb p (x ++ b) = true -> forallb p b = true.
Proof. rewrite forallb_app. intros H. apply andb_true_iff in H. tauto. Qed.

Lemma token_length (w : str) : id_token w -> 10 <= length w.
Proof.
  intros (a & m & b & d & -> & Ha & _ & Hb & Hne & _).
  rewrite !length_app.
  rewrite (lower_length a (txt "ochmo-")) by exact Ha.
  rewrite (lower_length b (txt "tb-")) by exact Hb.
  destruct d; [congruence|]. simpl. lia.
Qed.

(** On an identifier in normal form as the URL, [re.search] matches the
    whole of it. *)
Lemma search_canonical (w : str) :
  canonical_id w -> exists m, search id_re w = Some m /\ group0 m = w.
Proof.
  intros Hc. destruct (canonical_token w Hc) as [Htok _].
  destruct (search_occurs id_re w) as (m & E).
  { exists [], w, []. split; [now rewrite app_nil_r|]. now apply id_re_token. }
  exists m. split; [exact E|].
  destruct (search_some _ _ _ E) as (Hs & L & Hleft).
  assert (Hpre : m_pre m = []).
  { specialize (Hleft [] w []). rewrite <- Hs in Hleft. simpl in Hleft.
    rewrite app_nil_r in Hleft.
    specialize (Hleft eq_refl (proj2 (id_re_token w) Htok)).
    destruct (m_pre m); [reflexivity|simpl in Hleft; lia]. }
  rewrite Hpre in Hs. simpl in Hs.
  pose proof (search_heads _ _ _ _ id_re_heads E) as Hend.
  pose proof (token_length _ (proj1 (id_re_token _) L)) as Hlen.
  destruct Hc as (x & d & Hw & Hx & Hne & Hd).
  assert (Hsuf : exists y, d = y ++ m_post m).
  { apply (app_suffix (group0 m) (m_post m) (txt "OCHMO-" ++ x ++ txt "TB-") d).
    - rewrite <- Hs, Hw. now rewrite <- !app_assoc.
    - rewrite !length_app. destruct Hx as [->| ->]; simpl; lia. }
  destruct Hsuf as (y & Hy). rewrite Hy in Hd. apply forallb_suffix in Hd.
  destruct (m_post m) as [|c post].
  - now rewrite app_nil_r in Hs.
  - simpl in Hend, Hd. rewrite Hend in Hd. discriminate.
Qed.

Lemma parse_ochmo_id_upper_token (r : PdfReport) (id : str) :
  ochmo_id (_parse_ochmo_id r) = Some id -> exists w, id_token w /\ id = upper w.
Proof.
  unfold _parse_ochmo_id.
  destruct (search id_re (url r)) as [m|] eqn:E; simpl; [|discriminate].
  intros H. injection H as <-.
  destruct (search_some _ _ _ E) as (_ & L & _).
  exists (group0 m). split; [now apply id_re_token|].
  unfold group_1. unfold id_re in E. now rewrite (search_group _ _ _ E).
Qed.

(** X2.  The identifier [_parse_ochmo_id] sets is in normal form
    ([OCHMO-], an optional [M], [TB-] and digits, in capitals), whatever
    the case of the URL; and it is a fixed point: the identifier derived
    from an identifier is that identifier. *)
Theorem identifier_is_canonical (r : PdfReport) (id : str) :
  ochmo_id (_parse_ochmo_id r) = Some id ->
  canonical_id id /\
  upper id = id /\
  ochmo_id (_parse_ochmo_id (new_report id)) = Some id.
Proof.
  intros H. destruct (parse_ochmo_id_upper_token r id H) as (w & Hw & ->).
  pose proof (upper_token_canonical w Hw) as Hc.
  destruct (canonical_token _ Hc) as [_ Hup].
  split; [exact Hc|]. split; [exact Hup|].
  destruct (search_canonical _ Hc) as (m & E & Hg).
  unfold _parse_ochmo_id. simpl. rewrite E. simpl.
  unfold group_1. unfold id_re in E. rewrite (search_group _ _ _ E), Hg.
  now rewrite Hup.
Qed.

End IdentifierForm.

(* ===================================================================== *)
(** ** The title                                                          *)
(* ===================================================================== *)

Section Title.

(** The way a sequence finds first ends with the way its last pattern
    finds first, after a word of what is before. *)
Lemma exec_cat_head (r1 r2 : regex) (s : str) (g : option str)
      (x : option str * str) (rest : list (option str * str)) :
  exec (Cat r1 r2) s g = x :: rest ->
  exists w1 g1 s1 rest',
    s = w1 ++ s1 /\ lang r1 w1 /\ exec r2 s1 g1 = x :: rest'.
Proof.
  simpl. intros H. apply flat_map_head in H.
  destruct H as ([g1 s1] & rest' & Hin & H). simpl in H.
  destruct (exec_sound _ _ _ _ _ Hin) as (w1 & Hs & L).
  exists w1, g1, s1, rest'. auto.
Qed.

Lemma search_exec_head (r : regex) (s : str) (m : Match) :
  search r s = Some m ->
  s = m_pre m ++ group0 m ++ m_post m /\
  exists rest, exec r (group0 m ++ m_post m) None = (group1 m, m_post m) :: rest.
Proof.
  assert (Hhere : forall s m, match_here r s = Some m ->
            m_pre m = [] /\ s = group0 m ++ m_post m /\
            exists rest, exec r s None = (group1 m, m_post m) :: rest).
  { clear. intros s m. unfold match_here.
    destruct (exec r s None) as [|[g s'] rest] eqn:E; [discriminate|].
    intros H. inversion H; subst; clear H. simpl.
    destruct (exec_sound r s None g s') as (w & -> & _).
    { rewrite E. now left. }
    rewrite consumed_app. split; [reflexivity|]. split; [reflexivity|].
    now exists rest. }
  revert m. induction s as [|c s IH]; intros m H; simpl in H.
  - destruct (match_here r []) eqn:E; [|discriminate].
    inversion H; subst. destruct (Hhere _ _ E) as (Hp & Hs & rest & Hx).
    rewrite Hp. simpl. split; [exact Hs|]. exists rest. now rewrite <- Hs.
  - destruct (match_here r (c :: s)) eqn:E.
    + inversion H; subst. destruct (Hhere _ _ E) as (Hp & Hs & rest & Hx).
      rewrite Hp. simpl. split; [exact Hs|]. exists rest. now rewrite <- Hs.
    + destruct (search r s) as [m0|] eqn:E0; [|discriminate].
      simpl in H. inversion H; subst; clear H.
      destruct (IH m0 eq_refl) as (Hs & Hx). simpl.
      split; [now rewrite Hs at 1|exact Hx].
Qed.

Lemma suffix_snoc {A} (a b w : list A) (c : A) :
  w ++ [c] = a ++ b -> b <> [] -> exists b', b = b' ++ [c] /\ w = a ++ b'.
Proof.
  intros H Hb. destruct (exists_last Hb) as (b' & d & ->).
  rewrite app_assoc in H. apply app_inj_tail in H. destruct H as [H <-].
  exists b'. auto.
Qed.

(** A lazy run followed by a literal stops at the first place where the
    literal can be read. *)
Lemma lazy_run_stops_first (p : ascii -> bool) (l : str) (g : option str) :
  forall s w0 x rest,
    forallb p w0 = true ->
    not_inside l w0 s ->
    flat_map (fun gs : option str * str =>
                match strip_lit l (snd gs) with
                | Some s' => [(fst gs, s')]
                | None => []
                end)
             (map (fun gs : option str * str =>
                     (Some (consumed (w0 ++ s) (snd gs)), snd gs))
                  (map (pair g) (reluctant p s)))
    = x :: rest ->
    exists w ext,
      s = w ++ ext ++ snd x /\ fst x = Some (w0 ++ w) /\
      forallb p w = true /\ lower ext = lower l /\
      not_inside l (w0 ++ w) (ext ++ snd x).
Proof.
  assert (Hstop : forall s w0 s',
            not_inside l w0 s -> strip_lit l s = Some s' ->
            exists w ext,
              s = w ++ ext ++ s' /\ Some (consumed (w0 ++ s) s) = Some (w0 ++ w) /\
              forallb p w = true /\ lower ext = lower l /\
              not_inside l (w0 ++ w) (ext ++ s')).
  { intros s w0 s' Hin E.
    destruct (strip_lit_sound _ _ _ E) as (ext & -> & Hext).
    exists [], ext. rewrite consumed_app, app_nil_r. repeat split; auto. }
  induction s as [|c s IH]; intros w0 x rest Hp Hin H.
  - simpl in H. destruct (strip_lit l []) as [s'|] eqn:E; [|discriminate].
    simpl in H. injection H as <- _. simpl. now apply Hstop.
  - simpl in H. destruct (p c) eqn:Hc.
    + simpl in H. destruct (strip_lit l (c :: s)) as [s'|] eqn:E.
      * simpl in H. injection H as <- _. simpl. now apply Hstop.
      * simpl in H.
        replace (w0 ++ c :: s) with ((w0 ++ [c]) ++ s) in H
          by (now rewrite <- app_assoc).
        destruct (IH (w0 ++ [c]) x rest) as (w & ext & Hs & Hg & Hw & Hext & Hno).
        { rewrite forallb_app. simpl. now rewrite Hp, Hc. }
        { intros a b Hab Hb.
          destruct (suffix_snoc a b w0 c Hab Hb) as (b' & -> & Hw0).
          rewrite <- app_assoc. simpl.
          destruct b' as [|d b']; [exact E|].
          apply (Hin a (d :: b') Hw0). discriminate. }
        { exact H. }
        exists (c :: w), ext. rewrite <- app_assoc in Hg, Hno. simpl in Hg, Hno.
        repeat split; auto.
        -- simpl. now rewrite <- Hs.
        -- simpl. now rewrite Hc.
    + simpl in H. destruct (strip_lit l (c :: s)) as [s'|] eqn:E; [|discriminate].
      simpl in H. injection H as <- _. simpl. now apply Hstop.
Qed.

Lemma lazy_group_head (p : ascii -> bool) (l s : str) (g : option str)
      (x : option str * str) (rest : list (option str * str)) :
  exec (Cat (Group (StarLazy p)) (Lit l)) s g = x :: rest ->
  exists slug ext,
    s = slug ++ ext ++ snd x /\ fst x = Some slug /\
    forallb p slug = true /\ lower ext = lower l /\
    not_inside l slug (ext ++ snd x).
Proof.
  intros H. apply (lazy_run_stops_first p l g s [] x rest); [reflexivity| |exact H].
  intros a b Hab Hb. destruct a; destruct b; try discriminate. congruence.
Qed.

Lemma replace_hyphen (s : str) :
  replace (txt "-") (txt " ") s =
  map (fun c => if Ascii.eqb "-"%char c then " "%char else c) s.
Proof.
  unfold replace.
  induction s as [|c s IH]; [reflexivity|].
  cbn [replace_from startswith txt list_ascii_of_string length Nat.sub app map].
  rewrite andb_true_r. fold (txt "-") (txt " "). rewrite <- IH.
  destruct (Ascii.eqb "-"%char c); reflexivity.
Qed.

Lemma case_keeps_hyphen_and_line (c x : ascii) :
  x = "-"%char \/ x = nl ->
  In x (title_char c) \/ lower_latin1 c = x -> c = x.
Proof.
  intros [->| ->]; destruct c as [[] [] [] [] [] [] [] []]; vm_compute;
    intros [H|H];
    first [reflexivity | discriminate H
          | repeat (destruct H as [H|H]; [discriminate H|]); contradiction].
Qed.

Lemma title_from_in (x : ascii) (b : bool) (s : str) :
  x = "-"%char \/ x = nl -> In x (title_from b s) -> In x s.
Proof.
  intros Hx. revert b. induction s as [|c s IH]; intros b H; [exact H|].
  cbn [title_from] in H. apply in_app_or in H. destruct H as [H|H].
  - left. apply (case_keeps_hyphen_and_line c x Hx).
    destruct b; [right|left; exact H].
    destruct H as [H|[]]. exact H.
  - right. exact (IH _ H).
Qed.

Lemma title_char_length (c : ascii) :
  length (title_char c) = if Ascii.eqb c sharp_s then 2 else 1.
Proof. destruct c as [[] [] [] [] [] [] [] []]; vm_compute; reflexivity. Qed.

Lemma title_from_length_le (b : bool) (s : str) : length s <= length (title_from b s).
Proof.
  revert b. induction s as [|c s IH]; intros b; cbn [title_from]; [apply Nat.le_refl|].
  rewrite length_app. specialize (IH (is_cased c)).
  destruct b; cbn [length]; [lia|].
  rewrite title_char_length. destruct (Ascii.eqb c sharp_s); lia.
Qed.

Lemma title_from_length (b : bool) (s : str) :
  ~ In sharp_s s -> length (title_from b s) = length s.
Proof.
  revert b. induction s as [|c s IH]; intros b Hs; cbn [title_from]; [reflexivity|].
  rewrite length_app, IH by (intros H; apply Hs; now right).
  destruct b; cbn [length]; [reflexivity|].
  rewrite title_char_length. destruct (Ascii.eqb c sharp_s) eqn:E; [|reflexivity].
  apply Ascii.eqb_eq in E. exfalso. apply Hs. now left.
Qed.

(** The title made of a slug without line feed has neither hyphen nor
    line feed; it is as long as the slug, but for one more character for
    each sharp s that starts a word. *)
Lemma title_of_slug (slug : str) :
  forallb is_dot slug = true ->
  let t := str_title (replace (txt "-") (txt " ") slug) in
  ~ In "-"%char t /\ ~ In nl t /\ length slug <= length t /\
  (~ In sharp_s slug -> length t = length slug).
Proof.
  intros Hdot t. subst t. unfold str_title. rewrite replace_hyphen. repeat split.
  - intros H. apply (title_from_in "-"%char) in H; [|now left].
    apply in_map_iff in H. destruct H as (c & Hc & _).
    destruct (Ascii.eqb "-"%char c) eqn:E; [discriminate|].
    subst c. now rewrite Ascii.eqb_refl in E.
  - intros H. apply (title_from_in nl) in H; [|now right].
    apply in_map_iff in H. destruct H as (c & Hc & Hin).
    rewrite forallb_forall in Hdot. specialize (Hdot c Hin).
    destruct (Ascii.eqb "-"%char c); [discriminate|].
    subst c. discriminate.
  - eapply Nat.le_trans; [|apply title_from_length_le]. now rewrite length_map.
  - intros Hs. rewrite title_from_length; [apply length_map|].
    intros H. apply in_map_iff in H. destruct H as (c & Hc & Hin).
    destruct (Ascii.eqb "-"%char c); [discriminate|]. subst c. now apply Hs.
Qed.

Lemma title_re_head (s : str) (g : option str)
      (x : option str * str) (rest : list (option str * str)) :
  exec title_re s g = x :: rest ->
  exists hd slug ext,
    s = hd ++ slug ++ ext ++ snd x /\ title_head hd /\ fst x = Some slug /\
    forallb is_dot slug = true /\ lower ext = lower (txt ".pdf") /\
    not_inside (txt ".pdf") slug (ext ++ snd x).
Proof.
  unfold title_re. intros H.
  apply exec_cat_head in H. destruct H as (w1 & g1 & s1 & r1 & -> & L1 & H).
  apply exec_cat_head in H. destruct H as (w2 & g2 & s2 & r2 & -> & L2 & H).
  apply exec_cat_head in H. destruct H as (w3 & g3 & s3 & r3 & -> & L3 & H).
  apply exec_cat_head in H. destruct H as (w4 & g4 & s4 & r4 & -> & L4 & H).
  apply exec_cat_head in H. destruct H as (w5 & g5 & s5 & r5 & -> & L5 & H).
  apply lazy_group_head in H.
  destruct H as (slug & ext & -> & Hg & Hdot & Hext & Hno).
  exists (w1 ++ w2 ++ w3 ++ w4 ++ w5), slug, ext. split; [|split].
  - now rewrite <- !app_assoc.
  - unfold title_head. cbn [in_sequence].
    exists w1, (w2 ++ w3 ++ w4 ++ w5). split; [reflexivity|]. split; [exact L1|].
    exists w2, (w3 ++ w4 ++ w5). split; [reflexivity|]. split; [exact L2|].
    exists w3, (w4 ++ w5). split; [reflexivity|]. split; [exact L3|].
    exists w4, w5. split; [reflexivity|]. split; [exact L4|].
    exists w5, []. split; [now rewrite app_nil_r|]. split; [exact L5|reflexivity].
  - auto.
Qed.

(** X3.  On a record with an identifier, [_parse_title] sets the title
    from the leftmost place of the URL where a token, a hyphen, a slug
    without line feed and [.pdf] (in any case) follow one another; the
    slug is the shortest one, that is, it ends at the first [.pdf].  The
    title is the slug with its hyphens turned into spaces and its words
    capitalized: it holds no hyphen and no line feed (the other
    characters of the slug, a carriage return among them, stay), and it
    is as long as the slug unless the slug holds a sharp s, which can add
    a character.  The title is [None] exactly when the URL has no such
    place.  The URL is one whose letters have their capitals in
    Latin-1. *)
Theorem title_is_shortest_slug (r : PdfReport) :
  truthy (ochmo_id r) = true ->
  existsb capital_outside_latin1 (url r) = false ->
  match title (_parse_title r) with
  | Some t =>
      exists pre hd slug ext post,
        url r = pre ++ hd ++ slug ++ ext ++ post /\
        leftmost (lang title_re) pre (hd ++ slug ++ ext) post /\
        title_head hd /\ ci ".pdf" ext /\
        forallb is_dot slug = true /\
        not_inside (txt ".pdf") slug (ext ++ post) /\
        t = str_title (replace (txt "-") (txt " ") slug) /\
        ~ In "-"%char t /\ ~ In nl t /\
        length slug <= length t /\
        (~ In sharp_s slug -> length t = length slug)
  | None => ~ occurs (lang title_re) (url r)
  end.
Proof.
  intros Hid _. unfold _parse_title. rewrite Hid. cbn [negb].
  destruct (search title_re (url r)) as [m|] eqn:E; cbn [title].
  - destruct (search_exec_head _ _ _ E) as (Hs & rest & Hx).
    destruct (search_some _ _ _ E) as (_ & Hleft).
    destruct (title_re_head _ _ _ _ Hx) as (hd & slug & ext & Hw & Hhd & Hg & Hdot & Hext & Hno).
    simpl in Hw, Hg, Hno.
    assert (Hg0 : group0 m = hd ++ slug ++ ext).
    { apply (app_inv_tail (m_post m)). rewrite Hw. now rewrite <- !app_assoc. }
    exists (m_pre m), hd, slug, ext, (m_post m).
    destruct (title_of_slug slug Hdot) as (Hh & Hn & Hle & Hl).
    unfold group_1. rewrite Hg. rewrite Hg0 in Hs, Hleft.
    repeat split; auto.
    + rewrite Hs. now rewrite <- !app_assoc.
    + apply Hleft.
    + apply Hleft.
  - now apply search_none.
Qed.

End Title.

(* ===================================================================== *)
(** ** Requests                                                           *)
(* ===================================================================== *)

Section Requests.

Variable world : Type.
Variable http_get : str -> world -> option bytes * world.
Variable html_hrefs : bytes -> list str.
Variable urljoin : str -> str -> str.
Variable first_page : bytes -> pdf_outcome.

Local Abbreviation parse := (parse world http_get first_page).
Local Abbreviation _list_pdf_links := (_list_pdf_links world http_get html_hrefs urljoin).

Lemma parse_state (r : PdfReport) (st : state world) :
  let r2 := _parse_title (_parse_ochmo_id r) in
  match _pdf_bytes r with
  | Some b =>
      _pdf_bytes (fst (parse r st)) = Some b /\ fst (snd (parse r st)) = fst st
  | None =>
      _pdf_bytes (fst (parse r st)) = fst (http_get (url r) (fst st)) /\
      fst (snd (parse r st)) = snd (http_get (url r) (fst st))
  end.
Proof.
  intros r2. unfold parse, Scraper.parse, _fetch_pdf_content, bind, get, print, ret.
  fold r2. destruct (head_ops_rest_bytes r) as [Hb Hu]. fold r2 in Hb, Hu.
  rewrite Hb, Hu.
  destruct (_pdf_bytes r) as [b|] eqn:E.
  - rewrite Hb. destruct b as [|x b]; [split; [exact Hb|reflexivity]|].
    destruct (first_page (x :: b)); simpl; split; auto.
  - destruct (http_get (url r) (fst st)) as [[[|x b]|] w]; simpl; auto.
    destruct (first_page (x :: b)); simpl; auto.
Qed.

(** X4.  [parse] on a record that holds no bytes makes one request for
    its URL and keeps what the request returns, an empty response too;
    on a record that holds bytes, empty or not, it makes no request: the
    network is as it was and the bytes are kept.  A failed request
    leaves the record without bytes, so that the next [parse] asks
    again. *)
Theorem parse_requests_once (r : PdfReport) (st : state world) :
  let r' := fst (parse r st) in
  let net' := fst (snd (parse r st)) in
  (_pdf_bytes r = None ->
   _pdf_bytes r' = fst (http_get (url r) (fst st)) /\
   net' = snd (http_get (url r) (fst st))) /\
  (forall b, _pdf_bytes r = Some b -> _pdf_bytes r' = Some b /\ net' = fst st) /\
  (_pdf_bytes r' <> None ->
   forall st2, fst (snd (parse r' st2)) = fst st2 /\
               _pdf_bytes (fst (parse r' st2)) = _pdf_bytes r').
Proof.
  intros r' net'. pose proof (parse_state r st) as H. cbv zeta in H.
  split; [|split].
  - intros E. rewrite E in H. exact H.
  - intros b E. rewrite E in H. exact H.
  - intros Hsome st2. pose proof (parse_state r' st2) as H2. cbv zeta in H2.
    destruct (_pdf_bytes r') as [b|]; [|congruence].
    destruct H2 as [H2 H3]. split; [exact H3|exact H2].
Qed.


(** A link the discovery pattern accepts holds [.pdf?], in any case. *)
Lemma link_has_query (href : str) :
  is_some (search link_re href) = true -> occurs (ci ".pdf?") href.
Proof.
  destruct (search link_re href) as [m|] eqn:E; [intros _|discriminate].
  destruct (search_some _ _ _ E) as (Hs & L & _).
  destruct L as (a & x & Hw & _ & m' & y & -> & _ & b & z & -> & _ &
                 d & t & -> & _ & e & u & -> & _ & f & q & -> & Hf & Hq).
  exists (m_pre m ++ a ++ m' ++ b ++ d ++ e), (f ++ q), (m_post m). split.
  - rewrite Hs, Hw. now rewrite <- !app_assoc.
  - unfold ci. cbn [lang] in Hf, Hq.
    change (lower (f ++ q)) with (map lower_char (f ++ q)). rewrite map_app.
    change (map lower_char f) with (lower f). change (map lower_char q) with (lower q).
    rewrite Hf, Hq. reflexivity.
Qed.

End Requests.

(* ===================================================================== *)
(** ** The requirement codes                                              *)
(* ===================================================================== *)

Section RequirementCodes.

Lemma exec_lit_in (l s : str) (g g' : option str) (s' : str) :
  In (g', s') (exec (Lit l) s g) ->
  g' = g /\ exists a, s = a ++ s' /\ lower a = lower l.
Proof.
  simpl. destruct (strip_lit l s) as [s0|] eqn:E; [|contradiction].
  intros [H|[]]. inversion H; subst. split; [reflexivity|].
  now apply strip_lit_sound.
Qed.

(** What a group captures is the word its pattern consumed. *)
Lemma exec_group_in (r : regex) (s : str) (g g' : option str) (s' : str) :
  In (g', s') (exec (Group r) s g) ->
  exists w, s = w ++ s' /\ lang r w /\ g' = Some w.
Proof.
  simpl. intros H. apply in_map_iff in H.
  destruct H as ([g1 s1] & Hx & Hin). simpl in Hx. inversion Hx; subst.
  destruct (exec_sound _ _ _ _ _ Hin) as (w & -> & L).
  exists w. rewrite consumed_app. auto.
Qed.

Lemma bracket_has_no_case (c x : ascii) :
  x = "["%char \/ x = "]"%char -> lower_char c = x -> c = x.
Proof.
  intros [->| ->]; destruct c as [[] [] [] [] [] [] [] []]; vm_compute;
    intros H; first [reflexivity | discriminate H].
Qed.

Lemma ci_bracket (a : str) (x : ascii) :
  x = "["%char \/ x = "]"%char -> lower a = lower [x] -> a = [x].
Proof.
  intros Hx H. destruct a as [|c [|d a]]; try discriminate.
  injection H as H. f_equal. apply (bracket_has_no_case c x Hx).
  rewrite H. destruct Hx as [->| ->]; reflexivity.
Qed.

(** A match of the requirement pattern: the group is a code, and the
    match is the code between its brackets. *)
Lemma tr_re_match (s : str) (m : Match) :
  search tr_re s = Some m ->
  req_code (group_1 m) /\ group0 m = bracketed (group_1 m).
Proof.
  intros E. destruct (search_exec_head _ _ _ E) as (_ & rest & Hx).
  assert (Hin : In (group1 m, m_post m) (exec tr_re (group0 m ++ m_post m) None)).
  { rewrite Hx. now left. }
  unfold tr_re in Hin. cbn [exec] in Hin.
  apply in_flat_map in Hin. destruct Hin as ([g1 s1] & H1 & Hin).
  apply (exec_lit_in (txt "[")) in H1. destruct H1 as (-> & a & Hs & Ha).
  cbn [fst snd] in Hin.
  change (In (group1 m, m_post m)
             (exec (Cat (Group (Lit (txt "V") >> Sym is_digit >> Star is_space >>
                                Plus is_digit)) (Lit (txt "]"))) s1 None)) in Hin.
  cbn [exec] in Hin.
  apply in_flat_map in Hin. destruct Hin as ([g2 s2] & H2 & Hin).
  change (In (g2, s2)
             (exec (Group (Lit (txt "V") >> Sym is_digit >> Star is_space >>
                           Plus is_digit)) s1 None)) in H2.
  apply exec_group_in in H2. destruct H2 as (w & -> & L & ->).
  cbn [fst snd] in Hin.
  change (In (group1 m, m_post m) (exec (Lit (txt "]")) s2 (Some w))) in Hin.
  apply exec_lit_in in Hin. destruct Hin as (Hg & b & -> & Hb).
  apply (ci_bracket a "["%char) in Ha; [|now left].
  apply (ci_bracket b "]"%char) in Hb; [|now right].
  subst a b. unfold group_1. rewrite Hg. split.
  - destruct L as (v & x & -> & Hv & d & y & -> & Hd & sp & n & -> & Hsp & Hn).
    unfold req_code. cbn [in_sequence].
    exists v, (d ++ sp ++ n). split; [reflexivity|]. split; [exact Hv|].
    exists d, (sp ++ n). split; [reflexivity|]. split; [exact Hd|].
    exists sp, n. split; [reflexivity|]. split; [exact Hsp|].
    exists n, []. split; [now rewrite app_nil_r|]. split; [exact Hn|reflexivity].
  - unfold bracketed. apply (app_inv_tail (m_post m)).
    rewrite Hs. now rewrite <- !app_assoc.
Qed.

Lemma finditer_forall (r : regex) (P : Match -> Prop) :
  (forall w, lang r w -> w <> []) ->
  (forall s m, search r s = Some m -> P m) ->
  forall s, Forall P (finditer r s).
Proof.
  intros Hne HP s.
  remember (length s) as n eqn:Hn. revert s Hn.
  induction n as [n IH] using lt_wf_ind. intros s Hn.
  rewrite (finditer_unfold_nonempty r s Hne).
  destruct (search r s) as [m|] eqn:E; [|constructor].
  constructor; [exact (HP _ _ E)|].
  apply (IH (length (m_post m))); [|reflexivity].
  subst n. apply (search_shorter _ _ _ E).
  destruct (search_some _ _ _ E) as (_ & L & _). exact (Hne _ L).
Qed.

(** X6.  [_parse_technical_requirements] appends, to the requirement
    codes the record holds, the codes of the page: each is [V], a digit,
    whitespace if any and digits, taken as it is written (case and
    whitespace kept), and the codes between their brackets are the words
    the scan of the page for the requirement pattern meets, in order. *)
Theorem requirement_codes_are_bracket_contents (text : str) (r : PdfReport) :
  exists codes,
    technical_requirements (_parse_technical_requirements text r) =
    technical_requirements r ++ codes /\
    Forall req_code codes /\
    scan (lang tr_re) text (map bracketed codes) /\
    (forall ws, scan (lang tr_re) text ws -> ws = map bracketed codes).
Proof.
  exists (map group_1 (finditer tr_re text)).
  pose proof (finditer_forall tr_re _ tr_nonempty tr_re_match text) as Hall.
  assert (Hws : map bracketed (map group_1 (finditer tr_re text)) =
                map group0 (finditer tr_re text)).
  { rewrite map_map. apply map_ext_Forall.
    eapply Forall_impl; [|exact Hall]. intros m [_ H]. now rewrite H. }
  destruct (finditer_the_scan tr_re text tr_re_one_way tr_nonempty) as [Hs Hu].
  split; [|split; [|split]].
  - exact (proj2 (parse_technical_requirements_appends text r)).
  - apply Forall_map. eapply Forall_impl; [|exact Hall]. intros m [H _]. exact H.
  - rewrite Hws. exact Hs.
  - rewrite Hws. exact Hu.
Qed.

End RequirementCodes.

(* ===================================================================== *)
(** ** What a scrape returns                                              *)
(* ===================================================================== *)

Section Returned.

Variable world : Type.
Variable http_get : str -> world -> option bytes * world.
Variable html_hrefs : bytes -> list str.
Variable urljoin : str -> str -> str.
Variable first_page : bytes -> pdf_outcome.

Local Abbreviation parse := (parse world http_get first_page).
Local Abbreviation parse_each := (parse_each world http_get first_page).
Local Abbreviation _list_pdf_links := (_list_pdf_links world http_get html_hrefs urljoin).
Local Abbreviation scrape_reports :=
  (scrape_reports world http_get html_hrefs urljoin first_page).
Local Abbreviation main := (main world http_get html_hrefs urljoin first_page).
Local Abbreviation parse_each_parses := (parse_each_parses world http_get first_page).
Local Abbreviation parse_each_length := (parse_each_length world http_get first_page).

Lemma parse_each_Forall (P : PdfReport -> Prop) :
  (forall u st, P (fst (parse (new_report u) st))) ->
  forall urls st, Forall P (fst (parse_each urls st)).
Proof.
  intros HP. induction urls as [|u urls IH]; intros st; [constructor|].
  simpl. unfold bind, print, ret. simpl.
  destruct (Scraper.parse world http_get first_page (new_report u) _) as [r st1] eqn:E.
  specialize (IH st1).
  destruct (Scraper.parse_each world http_get first_page urls st1) as [rs st2].
  simpl in *. constructor; [|exact IH].
  change r with (fst (r, st1)). rewrite <- E. apply HP.
Qed.

Lemma parse_id_canonical (u : str) (st : state world) :
  ochmo_id (fst (parse (new_report u) st)) = None \/
  exists id, ochmo_id (fst (parse (new_report u) st)) = Some id /\ canonical_id id.
Proof.
  destruct (parse_head world http_get first_page (new_report u) st) as (_ & Hid & _).
  rewrite Hid.
  destruct (parse_title_id (_parse_ochmo_id (new_report u))) as [_ ->].
  destruct (ochmo_id (_parse_ochmo_id (new_report u))) as [id|] eqn:E; [right|now left].
  exists id. split; [reflexivity|].
  destruct (parse_ochmo_id_upper_token _ _ E) as (w & Hw & ->).
  now apply upper_token_canonical.
Qed.

Lemma slice_to_in {A} (xs : list A) (limit : option Z) (x : A) :
  In x (slice_to xs limit) -> In x xs.
Proof.
  unfold slice_to. destruct limit as [k|]; [|exact id].
  generalize (Z.to_nat (if (k <? 0)%Z
                        then Z.max (Z.of_nat (length xs) + k) 0
                        else Z.min k (Z.of_nat (length xs)))).
  intros n H. rewrite <- (firstn_skipn n xs). apply in_or_app. left. exact H.
Qed.

Lemma slice_to_length {A} (xs : list A) (limit : option Z) :
  length (slice_to xs limit) <= length xs.
Proof.
  unfold slice_to. destruct limit as [k|]; [|lia].
  rewrite length_firstn. lia.
Qed.

Lemma returned_filter (base : str) (limit : option Z) (st : state world) :
  fst (scrape_reports base limit st) =
  filter (fun r => truthy (ochmo_id r))
         (fst (parse_each (slice_to (fst (_list_pdf_links base st)) limit)
                          (snd (_list_pdf_links base st)))).
Proof.
  rewrite (scrape_reports_unfold world http_get html_hrefs urljoin first_page).
  rewrite scrape_loop_parse_each. reflexivity.
Qed.

Lemma returned_length (base : str) (limit : option Z) (st : state world) :
  length (fst (scrape_reports base limit st)) <=
  length (slice_to (fst (_list_pdf_links base st)) limit).
Proof.
  rewrite returned_filter.
  eapply Nat.le_trans; [apply filter_length_le|].
  rewrite <- (length_map url), parse_each_urls. apply Nat.le_refl.
Qed.

Lemma returned_identified (base : str) (limit : option Z) (st : state world)
      (r : PdfReport) :
  In r (fst (scrape_reports base limit st)) ->
  (exists id, ochmo_id r = Some id /\ canonical_id id) /\
  In (url r) (slice_to (fst (_list_pdf_links base st)) limit).
Proof.
  rewrite returned_filter. intros Hr.
  apply filter_In in Hr. destruct Hr as [Hin Htruthy]. split.
  - pose proof (parse_each_Forall
                  (fun r => ochmo_id r = None \/
                            exists id, ochmo_id r = Some id /\ canonical_id id)
                  parse_id_canonical
                  (slice_to (fst (_list_pdf_links base st)) limit)
                  (snd (_list_pdf_links base st))) as Hall.
    rewrite Forall_forall in Hall. destruct (Hall r Hin) as [Hnone|Hsome]; [|exact Hsome].
    rewrite Hnone in Htruthy. discriminate.
  - rewrite <- (parse_each_urls world http_get first_page _ (snd (_list_pdf_links base st))).
    now apply in_map.
Qed.

(** X7.  Every report [scrape_reports] returns has an identifier in
    normal form and the URL of a discovered link, one of those the limit
    keeps; there are no more reports than links kept, so no more than a
    limit [k >= 0]. *)
Theorem scrape_reports_returns_identified (base : str) (limit : option Z)
        (st : state world) :
  let links := fst (_list_pdf_links base st) in
  let reports := fst (scrape_reports base limit st) in
  Forall (fun r => (exists id, ochmo_id r = Some id /\ canonical_id id) /\
                   In (url r) (slice_to links limit) /\ In (url r) links)
         reports /\
  length reports <= length (slice_to links limit) /\
  length reports <= length links /\
  (forall k : nat, limit = Some (Z.of_nat k) -> length reports <= k).
Proof.
  intros links reports.
  pose proof (returned_length base limit st) as Hlen. fold links reports in Hlen.
  split; [|split; [exact Hlen|split]].
  - apply Forall_forall. intros r Hr.
    destruct (returned_identified base limit st r Hr) as [Hid Hu].
    split; [exact Hid|]. split; [exact Hu|exact (slice_to_in _ _ _ Hu)].
  - pose proof (slice_to_length links limit). lia.
  - intros k ->. rewrite slice_to_nonneg in Hlen. rewrite length_firstn in Hlen. lia.
Qed.

Lemma slice_to_nil {A} (limit : option Z) : slice_to (@nil A) limit = [].
Proof. unfold slice_to. destruct limit; [apply firstn_nil|reflexivity]. Qed.

(** X5.  When the request for the listing page fails, [scrape_reports]
    returns no report whatever the limit: it prints the failure, makes no
    other request and processes no URL.  The script then prints the
    banner alone. *)
Theorem scrape_reports_listing_failure (base : str) (limit : option Z)
        (st : state world) :
  fst (http_get base (fst st)) = None ->
  scrape_reports base limit st =
    ([], (snd (http_get base (fst st)), snd st ++ [FailedBase])) /\
  (base = BASE_URL -> fst (main st) = [banner]).
Proof.
  intros Hfail.
  assert (Hrun : forall l, scrape_reports base l st =
                           ([], (snd (http_get base (fst st)), snd st ++ [FailedBase]))).
  { intros l.
    rewrite (scrape_reports_unfold world http_get html_hrefs urljoin first_page).
    unfold _list_pdf_links, Scraper._list_pdf_links, bind, get, print, ret.
    destruct (http_get base (fst st)) as [[content|] w]; [discriminate|].
    simpl. rewrite slice_to_nil. reflexivity. }
  split; [apply Hrun|].
  intros ->. unfold main, Report.main.
  change (Scraper.scrape_reports world http_get html_hrefs urljoin first_page)
    with scrape_reports.
  rewrite Hrun. reflexivity.
Qed.

(** X8.  The script passes the first three links discovered on
    [BASE_URL] into [parse], one after the other, and prints, after the
    banner, the text of each of these records that has an identifier:
    at most three texts, each of a report of one of these links whose
    identifier is in normal form. *)
Theorem main_prints_at_most_three (st : state world) :
  let links := fst (_list_pdf_links BASE_URL st) in
  let st1 := snd (_list_pdf_links BASE_URL st) in
  let parsed := parse_each (firstn 3 links) st1 in
  main st =
    (banner :: map to_string_pretty
                   (filter (fun r => is_some (ochmo_id r)) (fst parsed)),
     snd parsed) /\
  Forall2 (fun u r => exists st_u, r = fst (parse (new_report u) st_u))
          (firstn 3 links) (fst parsed) /\
  length (fst parsed) = Nat.min 3 (length links) /\
  length (fst (main st)) <= 4 /\
  processed (snd (snd (main st))) = processed (snd st) ++ firstn 3 links /\
  Forall (fun t => exists r id,
              t = to_string_pretty r /\ In (url r) (firstn 3 links) /\
              ochmo_id r = Some id /\ canonical_id id)
         (tl (fst (main st))).
Proof.
  intros links st1 parsed.
  set (reports := fst (scrape_reports BASE_URL (Some 3%Z) st)).
  assert (Hmain : main st = (banner :: map to_string_pretty reports,
                             snd (scrape_reports BASE_URL (Some 3%Z) st))).
  { unfold main, Report.main. subst reports.
    destruct (scrape_reports BASE_URL (Some 3%Z) st) as [rs st']. reflexivity. }
  pose proof (scrape_reports_run world http_get html_hrefs urljoin first_page
                                 BASE_URL (Some (Z.of_nat 3)) st) as Hrun.
  rewrite slice_to_nonneg in Hrun. fold links st1 parsed in Hrun.
  change (Some 3%Z) with (Some (Z.of_nat 3)) in *.
  rewrite Hmain. subst reports. rewrite Hrun. cbn [fst snd].
  split; [reflexivity|]. split; [apply parse_each_parses|].
  split; [unfold parsed; rewrite parse_each_length; apply length_firstn|].
  pose proof (returned_length BASE_URL (Some (Z.of_nat 3)) st) as Hlen.
  rewrite slice_to_nonneg, length_firstn, Hrun in Hlen. cbn [fst] in Hlen.
  fold links in Hlen.
  split; [|split].
  - cbn [length]. rewrite length_map. lia.
  - unfold parsed, st1.
    rewrite (parse_each_processed world http_get first_page).
    now rewrite (list_pdf_links_processed world http_get html_hrefs urljoin).
  - cbn [tl]. apply Forall_forall. intros t Ht.
    apply in_map_iff in Ht. destruct Ht as (r & <- & Hr).
    assert (Hin : In r (fst (scrape_reports BASE_URL (Some (Z.of_nat 3)) st))).
    { rewrite Hrun. exact Hr. }
    destruct (returned_identified BASE_URL (Some (Z.of_nat 3)) st r Hin)
      as [(id & Hid & Hcanon) Hu].
    rewrite slice_to_nonneg in Hu.
    exists r, id. repeat split; assumption.
Qed.

End Returned.

(* ===================================================================== *)
(** ** The text of a report                                               *)
(* ===================================================================== *)

Section Printed.

Variable world : Type.
Variable http_get : str -> world -> option bytes * world.
Variable first_page : bytes -> pdf_outcome.

Local Abbreviation reachable := (reachable world http_get first_page).

Lemma split_at_first {A} (c : A) (a b x y : list A) :
  ~ In c a -> ~ In c b -> a ++ c :: x = b ++ c :: y -> a = b /\ x = y.
Proof.
  revert b. induction a as [|h a IH]; intros [|k b] Ha Hb H; simpl in H.
  - injection H as ->. now split.
  - injection H as <- _. exfalso. apply Hb. now left.
  - injection H as -> _. exfalso. apply Ha. now left.
  - injection H as -> H.
    destruct (IH b) as [-> ->]; auto.
    + intros Hin. apply Ha. now right.
    + intros Hin. apply Hb. now right.
Qed.

Lemma canonical_no_quote (id : str) : canonical_id id -> ~ In quote id.
Proof.
  intros (m & d & -> & Hm & _ & Hd) Hin.
  assert (Hdq : ~ In quote d).
  { intros H. rewrite forallb_forall in Hd. specialize (Hd _ H). discriminate. }
  destruct Hm as [-> | ->]; simpl in Hin;
    repeat (destruct Hin as [Hin|Hin]; [discriminate|]); now apply Hdq.
Qed.

Lemma canonical_not_none (id : str) : canonical_id id -> id <> txt "None".
Proof. intros (m & d & -> & _) H. discriminate. Qed.

Lemma reachable_id (r : PdfReport) :
  reachable r ->
  ochmo_id r = None \/ exists id, ochmo_id r = Some id /\ canonical_id id.
Proof.
  intros Hr. destruct (reachable_invariant world http_get first_page r Hr) as [[Hid|Hid] _].
  - now left.
  - destruct (ochmo_id r) as [id|] eqn:E; [right|now left].
    exists id. split; [reflexivity|].
    destruct (parse_ochmo_id_upper_token r id (eq_sym Hid)) as (w & Hw & ->).
    now apply upper_token_canonical.
Qed.

Lemma format_id_no_quote (r : PdfReport) :
  reachable r -> ~ In quote (format_opt (ochmo_id r)).
Proof.
  intros Hr. destruct (reachable_id r Hr) as [-> | (id & -> & Hc)]; simpl.
  - intros H. repeat (destruct H as [H|H]; [discriminate|]). exact H.
  - now apply canonical_no_quote.
Qed.

Lemma format_id_injective (r r' : PdfReport) :
  reachable r -> reachable r' ->
  format_opt (ochmo_id r) = format_opt (ochmo_id r') -> ochmo_id r = ochmo_id r'.
Proof.
  intros Hr Hr' H.
  destruct (reachable_id r Hr) as [E | (id & E & Hc)];
    destruct (reachable_id r' Hr') as [E' | (id' & E' & Hc')];
    rewrite E, E' in *; simpl in H.
  - reflexivity.
  - exfalso. now apply (canonical_not_none id').
  - exfalso. now apply (canonical_not_none id).
  - now rewrite H.
Qed.

(** X10.  On records the operations of [PdfReport] lead to, [__repr__]
    tells two identifiers apart, a missing one included, and shows the
    title as text: two records have the same [__repr__] exactly when they
    have the same identifier and their titles print alike. *)
Theorem repr_shows_identifier (r r' : PdfReport) :
  reachable r -> reachable r' ->
  (repr r = repr r' <->
   ochmo_id r = ochmo_id r' /\ format_opt (title r) = format_opt (title r')).
Proof.
  intros Hr Hr'. unfold repr. split.
  - intros H. apply app_inv_head in H.
    change (txt "', title='") with (quote :: txt ", title='") in H.
    apply split_at_first in H; try now apply format_id_no_quote.
    destruct H as [Hid H]. apply app_inv_head in H. apply app_inv_tail in H.
    split; [now apply format_id_injective|exact H].
  - intros [-> ->]. reflexivity.
Qed.

End Printed.

(* ===================================================================== *)
(** ** Resolution of the links                                            *)
(* ===================================================================== *)

Section Resolution.

Local Abbreviation has_token := (occurs id_token).





















































End Resolution.

Section Kept.

Variable world : Type.
Variable http_get : str -> world -> option bytes * world.
Variable html_hrefs : bytes -> list str.
Variable first_page : bytes -> pdf_outcome.

Local Abbreviation parse := (parse world http_get first_page).
Local Abbreviation parse_each := (parse_each world http_get first_page).
Local Abbreviation _list_pdf_links :=
  (_list_pdf_links world http_get html_hrefs Urllib.urljoin).
Local Abbreviation scrape_reports :=
  (scrape_reports world http_get html_hrefs Urllib.urljoin first_page).








End Kept.

(* ===================================================================== *)
(** ** The properties on documents                                        *)
(* ===================================================================== *)

Section MoreRuns.

(** X2 on the URL of the scenario. *)
Lemma identifier_is_canonical_witness :
  let r := new_report Demo.brief_url in
  let id := txt "OCHMO-MTB-123" in
  ochmo_id (_parse_ochmo_id r) = Some id /\
  canonical_id id /\ upper id = id /\
  ochmo_id (_parse_ochmo_id (new_report id)) = Some id.
Proof.
  intros r id.
  assert (H : ochmo_id (_parse_ochmo_id r) = Some id) by (vm_compute; reflexivity).
  split; [exact H|]. exact (identifier_is_canonical r id H).
Defined.

(** X3 on the URL of the scenario: the title is read from the slug
    [crew-health-risk]. *)
Lemma title_is_shortest_slug_witness :
  let r := _parse_ochmo_id (new_report Demo.brief_url) in
  truthy (ochmo_id r) = true /\
  existsb capital_outside_latin1 (url r) = false /\
  title (_parse_title r) = Some (txt "Crew Health Risk") /\
  match title (_parse_title r) with
  | Some t =>
      exists pre hd slug ext post,
        url r = pre ++ hd ++ slug ++ ext ++ post /\
        leftmost (lang title_re) pre (hd ++ slug ++ ext) post /\
        title_head hd /\ ci ".pdf" ext /\ forallb is_dot slug = true /\
        not_inside (txt ".pdf") slug (ext ++ post) /\
        t = str_title (replace (txt "-") (txt " ") slug) /\
        ~ In "-"%char t /\ ~ In nl t /\
        length slug <= length t /\
        (~ In sharp_s slug -> length t = length slug)
  | None => ~ occurs (lang title_re) (url r)
  end.
Proof.
  intros r.
  assert (H : truthy (ochmo_id r) = true) by (vm_compute; reflexivity).
  assert (Hl : existsb capital_outside_latin1 (url r) = false)
    by (vm_compute; reflexivity).
  split; [exact H|]. split; [exact Hl|]. split; [vm_compute; reflexivity|].
  exact (title_is_shortest_slug r H Hl).
Defined.

(** X10 on two URLs of one identifier: the record without a title and
    the record whose title is [None] have the same [__repr__]. *)
Lemma repr_shows_identifier_witness :
  let r := _parse_title (_parse_ochmo_id (new_report (txt "https://x/ochmo-tb-1.pdf"))) in
  let r' :=
    _parse_title (_parse_ochmo_id (new_report (txt "https://x/ochmo-tb-1-none.pdf"))) in
  reachable Demo.world (Demo.http_get true) (Demo.first_page []) r /\
  reachable Demo.world (Demo.http_get true) (Demo.first_page []) r' /\
  title r = None /\ title r' = Some (txt "None") /\
  repr r = repr r'.
Proof.
  intros r r'.
  assert (Hr : reachable Demo.world (Demo.http_get true) (Demo.first_page []) r).
  { apply reach_parse_title, reach_parse_ochmo_id, reach_new. }
  assert (Hr' : reachable Demo.world (Demo.http_get true) (Demo.first_page []) r').
  { apply reach_parse_title, reach_parse_ochmo_id, reach_new. }
  split; [exact Hr|]. split; [exact Hr'|].
  split; [vm_compute; reflexivity|]. split; [vm_compute; reflexivity|].
  apply (repr_shows_identifier Demo.world (Demo.http_get true) (Demo.first_page [])
                               r r' Hr Hr').
  split; vm_compute; reflexivity.
Defined.

(** X5 on a network where every request fails. *)
Lemma scrape_reports_listing_failure_witness :
  let run :=
    scrape_reports Demo.world Demo.offline (Demo.html_hrefs [Demo.brief_url])
                   Urllib.urljoin (Demo.first_page Demo.brief_text)
                   BASE_URL (Some 3%Z) Demo.start in
  fst (Demo.offline BASE_URL tt) = None /\
  run = ([], (tt, [FailedBase])) /\
  fst (main Demo.world Demo.offline (Demo.html_hrefs [Demo.brief_url])
            Urllib.urljoin (Demo.first_page Demo.brief_text) Demo.start) = [banner].
Proof.
  intros run.
  destruct (scrape_reports_listing_failure
              Demo.world Demo.offline (Demo.html_hrefs [Demo.brief_url])
              Urllib.urljoin (Demo.first_page Demo.brief_text)
              BASE_URL (Some 3%Z) Demo.start eq_refl) as [Hrun Hmain].
  split; [reflexivity|]. split; [exact Hrun|]. exact (Hmain eq_refl).
Defined.


End MoreRuns.
